(** * UB-WaveX: the playback queue and state engine

    A shallow embedding of [src/ui/player.js] (class [AudioPlayer]): the
    two-tier queue (temporary queue and context queue), the shuffle engine,
    the preload cache and the persisted playback state, followed by the
    properties the specification states about them.

    Conventions of the embedding.
    - A JavaScript value that may be [null] or [undefined] is an [option];
      an array is a [list]; [arr[i]] with [i] out of range is [undefined],
      so indexing returns an [option].
    - Numbers that are indices are [Z] (the code starts them at [-1]);
      positions in seconds are [Q]. A result of [Math.random()] is given
      as the rational it denotes; it is multiplied and floored as the
      double it is.
    - [async] methods are run to completion: the queue state is only ever
      touched synchronously, the awaited work is the stream resolution.
      The preload pass that [playNext] and [playContext] start without
      awaiting it is a transition of its own, [preloadUpcomingTracks].
    - The position of the transport, [audio.currentTime], advances on its
      own between calls; the engine only reads it and seeks.
    - DOM updates ([updatePlayerUI], [updatePlaybackSourceUI],
      [markTrackAsPlaying]) and console output carry no engine state and
      are left out; the one console line kept is the rejection that
      [addToQueue] logs, which is all a caller can see of it. *)

From Stdlib Require Import ZArith QArith Qminmax Ascii Lia SpecFloat.
From stdpp Require Import base option list strings.

Close Scope Q_scope.
Open Scope Z_scope.

(** ** JavaScript helpers *)

(** [a || b] on an optional string: [null], [undefined] and the empty
    string are falsy. *)
Definition truthy_string (o : option string) : bool :=
  match o with
  | Some str => negb (String.eqb str "")
  | None => false
  end.

Definition or_string (a b : option string) : option string :=
  if truthy_string a then a else b.

(** [n || 0] on an optional number. *)
Definition or_zero (o : option Z) : Z := default 0 o.

(** [arr[i]]: [undefined] outside [0 .. length-1]. *)
Definition js_get {A} (l : list A) (i : Z) : option A :=
  if i <? 0 then None else l !! Z.to_nat i.

(** [arr[i]] on an array whose slots may themselves hold [undefined]. *)
Definition js_at {A} (l : list (option A)) (i : Z) : option A :=
  mjoin (js_get l i).

(** [arr.slice(start)]: a negative [start] counts from the end. *)
Definition js_slice_from {A} (l : list A) (start : Z) : list A :=
  if start <? 0
  then drop (Z.to_nat (Z.max (Z.of_nat (length l) + start) 0)) l
  else drop (Z.to_nat start) l.

(** [arr.filter(t => t)]: drops the [null]/[undefined] slots. *)
Definition filter_truthy {A} (l : list (option A)) : list (option A) :=
  Some <$> omap id l.

(** [a > b] on positions in seconds. *)
Definition Qgtb (a b : Q) : bool := negb (Qle_bool a b).

(** ** Data model *)

(** A track object, with the fields the engine reads. Display metadata
    (title, artist) is not part of the sequencing state. *)
Record Track := mkTrack {
  youtube_id : option string;
  duration : option Z;
  downloaded : bool;
  file_path : option string
}.

#[global] Instance Track_eq_dec : EqDecision Track.
Proof. solve_decision. Defined.

Inductive ContextType := Online | Playlist | Liked | Downloads.

#[global] Instance ContextType_eq_dec : EqDecision ContextType.
Proof. solve_decision. Defined.

(** [this.playbackContext] *)
Record PlaybackContext := mkContext {
  ctx_type : option ContextType;
  ctx_id : option string;
  ctx_name : option string;
  tracks : list Track;
  shuffle : bool
}.

(** The argument of [playContext]:
    [{ type, id, name, tracks, startIndex, shuffle }]. *)
Record ContextArg := mkContextArg {
  arg_type : option ContextType;
  arg_id : option string;
  arg_name : option string;
  arg_tracks : list Track;
  arg_startIndex : option Z;
  arg_shuffle : bool
}.

(** A value of [this.preloadCache]: [{ url, track, timestamp, duration }]. *)
Record CacheEntry := mkEntry {
  url : string;
  entry_track : Track;
  timestamp : Z;
  entry_duration : Z
}.

(** The engine state: the fields of [AudioPlayer] set in its constructor,
    the two properties of the [<audio>] element the engine reads back, and
    [loaded], the tracks for which [loadAndPlayTrack] asked the transport
    to load and play, oldest first.

    [preloadCache] is a JavaScript [Map]: keys are unique and iteration
    follows insertion order, hence an association list. *)
Record Player := mkPlayer {
  currentTrack : option Track;
  savedRestoreTime : Q;
  temporaryQueue : list Track;
  contextQueue : list (option Track);
  contextQueueIndex : Z;
  queue : list (option Track);
  queueIndex : Z;
  preloadCache : list (option string * CacheEntry);
  isPlaying : bool;
  playbackContext : PlaybackContext;
  shuffledIndices : list Z;
  originalQueue : list Track;
  audio_currentTime : Q;
  audio_paused : bool;
  loaded : list Track
}.

Definition maxPreloadTracks : Z := 5.
Definition maxPreloadDuration : Z := 1800.

Definition empty_context : PlaybackContext :=
  mkContext None None None [] false.

(** The state the constructor builds. *)
Definition initial : Player :=
  mkPlayer None 0%Q [] [] (-1) [] (-1) [] false empty_context [] []
           0%Q true [].

(** Field updates. *)
Definition set_currentTrack (v : option Track) (s : Player) : Player :=
  mkPlayer v (savedRestoreTime s) (temporaryQueue s) (contextQueue s)
    (contextQueueIndex s) (queue s) (queueIndex s) (preloadCache s)
    (isPlaying s) (playbackContext s) (shuffledIndices s) (originalQueue s)
    (audio_currentTime s) (audio_paused s) (loaded s).

Definition set_savedRestoreTime (v : Q) (s : Player) : Player :=
  mkPlayer (currentTrack s) v (temporaryQueue s) (contextQueue s)
    (contextQueueIndex s) (queue s) (queueIndex s) (preloadCache s)
    (isPlaying s) (playbackContext s) (shuffledIndices s) (originalQueue s)
    (audio_currentTime s) (audio_paused s) (loaded s).

Definition set_temporaryQueue (v : list Track) (s : Player) : Player :=
  mkPlayer (currentTrack s) (savedRestoreTime s) v (contextQueue s)
    (contextQueueIndex s) (queue s) (queueIndex s) (preloadCache s)
    (isPlaying s) (playbackContext s) (shuffledIndices s) (originalQueue s)
    (audio_currentTime s) (audio_paused s) (loaded s).

Definition set_contextQueue (v : list (option Track)) (s : Player) : Player :=
  mkPlayer (currentTrack s) (savedRestoreTime s) (temporaryQueue s) v
    (contextQueueIndex s) (queue s) (queueIndex s) (preloadCache s)
    (isPlaying s) (playbackContext s) (shuffledIndices s) (originalQueue s)
    (audio_currentTime s) (audio_paused s) (loaded s).

Definition set_contextQueueIndex (v : Z) (s : Player) : Player :=
  mkPlayer (currentTrack s) (savedRestoreTime s) (temporaryQueue s)
    (contextQueue s) v (queue s) (queueIndex s) (preloadCache s)
    (isPlaying s) (playbackContext s) (shuffledIndices s) (originalQueue s)
    (audio_currentTime s) (audio_paused s) (loaded s).

Definition set_queue (v : list (option Track)) (s : Player) : Player :=
  mkPlayer (currentTrack s) (savedRestoreTime s) (temporaryQueue s)
    (contextQueue s) (contextQueueIndex s) v (queueIndex s) (preloadCache s)
    (isPlaying s) (playbackContext s) (shuffledIndices s) (originalQueue s)
    (audio_currentTime s) (audio_paused s) (loaded s).

Definition set_queueIndex (v : Z) (s : Player) : Player :=
  mkPlayer (currentTrack s) (savedRestoreTime s) (temporaryQueue s)
    (contextQueue s) (contextQueueIndex s) (queue s) v (preloadCache s)
    (isPlaying s) (playbackContext s) (shuffledIndices s) (originalQueue s)
    (audio_currentTime s) (audio_paused s) (loaded s).

Definition set_preloadCache (v : list (option string * CacheEntry))
    (s : Player) : Player :=
  mkPlayer (currentTrack s) (savedRestoreTime s) (temporaryQueue s)
    (contextQueue s) (contextQueueIndex s) (queue s) (queueIndex s) v
    (isPlaying s) (playbackContext s) (shuffledIndices s) (originalQueue s)
    (audio_currentTime s) (audio_paused s) (loaded s).

Definition set_isPlaying (v : bool) (s : Player) : Player :=
  mkPlayer (currentTrack s) (savedRestoreTime s) (temporaryQueue s)
    (contextQueue s) (contextQueueIndex s) (queue s) (queueIndex s)
    (preloadCache s) v (playbackContext s) (shuffledIndices s)
    (originalQueue s) (audio_currentTime s) (audio_paused s) (loaded s).

Definition set_playbackContext (v : PlaybackContext) (s : Player) : Player :=
  mkPlayer (currentTrack s) (savedRestoreTime s) (temporaryQueue s)
    (contextQueue s) (contextQueueIndex s) (queue s) (queueIndex s)
    (preloadCache s) (isPlaying s) v (shuffledIndices s) (originalQueue s)
    (audio_currentTime s) (audio_paused s) (loaded s).

Definition set_shuffledIndices (v : list Z) (s : Player) : Player :=
  mkPlayer (currentTrack s) (savedRestoreTime s) (temporaryQueue s)
    (contextQueue s) (contextQueueIndex s) (queue s) (queueIndex s)
    (preloadCache s) (isPlaying s) (playbackContext s) v (originalQueue s)
    (audio_currentTime s) (audio_paused s) (loaded s).

Definition set_originalQueue (v : list Track) (s : Player) : Player :=
  mkPlayer (currentTrack s) (savedRestoreTime s) (temporaryQueue s)
    (contextQueue s) (contextQueueIndex s) (queue s) (queueIndex s)
    (preloadCache s) (isPlaying s) (playbackContext s) (shuffledIndices s) v
    (audio_currentTime s) (audio_paused s) (loaded s).

Definition set_audio_currentTime (v : Q) (s : Player) : Player :=
  mkPlayer (currentTrack s) (savedRestoreTime s) (temporaryQueue s)
    (contextQueue s) (contextQueueIndex s) (queue s) (queueIndex s)
    (preloadCache s) (isPlaying s) (playbackContext s) (shuffledIndices s)
    (originalQueue s) v (audio_paused s) (loaded s).

Definition set_audio_paused (v : bool) (s : Player) : Player :=
  mkPlayer (currentTrack s) (savedRestoreTime s) (temporaryQueue s)
    (contextQueue s) (contextQueueIndex s) (queue s) (queueIndex s)
    (preloadCache s) (isPlaying s) (playbackContext s) (shuffledIndices s)
    (originalQueue s) (audio_currentTime s) v (loaded s).

Definition set_loaded (v : list Track) (s : Player) : Player :=
  mkPlayer (currentTrack s) (savedRestoreTime s) (temporaryQueue s)
    (contextQueue s) (contextQueueIndex s) (queue s) (queueIndex s)
    (preloadCache s) (isPlaying s) (playbackContext s) (shuffledIndices s)
    (originalQueue s) (audio_currentTime s) (audio_paused s) v.

(** [this.playbackContext.shuffle = b] *)
Definition set_shuffle (b : bool) (s : Player) : Player :=
  let c := playbackContext s in
  set_playbackContext
    (mkContext (ctx_type c) (ctx_id c) (ctx_name c) (tracks c) b) s.

(** ** Queue manager *)

(** [loadAndPlayTrack(track)]. The method first records the track as
    current. With [undefined] the following [updatePlayerUI(track)] throws
    inside the [try] and nothing is loaded. Otherwise the source is chosen
    (local file, preload cache or resolver) and the transport is started:
    that request is what [loaded] records; whether the resolver succeeds is
    outside the engine and changes no queue state. The state written by
    the closing [savePlaybackState()] is [savePlaybackState] below. *)
Definition loadAndPlayTrack (track : option Track) (s : Player) : Player :=
  let s1 := set_currentTrack track s in
  match track with
  | Some t => set_loaded (loaded s1 ++ [t]) s1
  | None => s1
  end.

(** [rebuildCombinedQueue()] *)
Definition rebuildCombinedQueue (s : Player) : Player :=
  let remainingContext :=
    js_slice_from (contextQueue s) (contextQueueIndex s + 1) in
  let combined :=
    filter_truthy
      ([currentTrack s] ++ (Some <$> temporaryQueue s) ++ remainingContext) in
  set_queueIndex 0 (set_queue combined s).

(** How a call ends: it returns, or an error is thrown to the caller. *)
Inductive Completion := Returned | Thrown (error : string).

(** What a call of [addToQueue] shows to the outside besides the engine
    state. The method has no [throw] and no [return] with a value: both
    paths return [undefined]. The rejecting path writes one line to the
    error console, [console.error('Invalid track:', track)]. *)
Record CallReport := mkReport {
  completion : Completion;
  console_error : option string
}.

(** [!track || !track.youtube_id] *)
Definition invalid_track (track : option Track) : bool :=
  match track with
  | None => true
  | Some t => negb (truthy_string (youtube_id t))
  end.

(** [addToQueue(track, playNext = false)] *)
Definition addToQueue (track : option Track) (playNext : bool) (s : Player)
    : CallReport * Player :=
  match track with
  | None => (mkReport Returned (Some "Invalid track:"%string), s)
  | Some t =>
      if negb (truthy_string (youtube_id t))
      then (mkReport Returned (Some "Invalid track:"%string), s)
      else
        let s1 :=
          if playNext
          then set_temporaryQueue (t :: temporaryQueue s) s
          else set_temporaryQueue (temporaryQueue s ++ [t]) s in
        (mkReport Returned None, rebuildCombinedQueue s1)
  end.

(** [playNext()] *)
Definition playNext (s : Player) : Player :=
  match temporaryQueue s with
  | t :: rest =>
      let s1 := rebuildCombinedQueue (set_temporaryQueue rest s) in
      loadAndPlayTrack (Some t) s1
  | [] =>
      if contextQueueIndex s <? Z.of_nat (length (contextQueue s)) - 1 then
        let s1 := set_contextQueueIndex (contextQueueIndex s + 1) s in
        let nextTrack := js_at (contextQueue s1) (contextQueueIndex s1) in
        let s2 := set_queueIndex (queueIndex s1 + 1) s1 in
        match nextTrack with
        | Some t => loadAndPlayTrack (Some t) s2
        | None => s2
        end
      else s
  end.

(** [playPrevious()] *)
Definition playPrevious (s : Player) : Player :=
  if Qgtb (audio_currentTime s) 3 then
    set_audio_currentTime 0%Q s
  else if 0 <? contextQueueIndex s then
    let s1 := set_contextQueueIndex (contextQueueIndex s - 1) s in
    let s2 :=
      loadAndPlayTrack (js_at (contextQueue s1) (contextQueueIndex s1)) s1 in
    rebuildCombinedQueue s2
  else
    set_audio_currentTime 0%Q s.

(** [playTrack(track)] *)
Definition playTrack (track : Track) (s : Player) : Player :=
  let s1 := set_temporaryQueue [] s in
  let s2 :=
    set_playbackContext (mkContext (Some Online) None None [track] false) s1 in
  let s3 := set_contextQueueIndex 0 (set_contextQueue [Some track] s2) in
  let s4 := set_queueIndex 0 (set_queue [Some track] s3) in
  loadAndPlayTrack (Some track) s4.

(** [getContextDisplayName(type)] *)
Definition getContextDisplayName (type : option ContextType) : option string :=
  match type with
  | Some Liked => Some "Liked Songs"%string
  | Some Downloads => Some "Downloads"%string
  | _ => None
  end.

(** ** Numbers

    A JavaScript number is an IEEE 754 binary64 value, and the products
    the engine floors are products of doubles. They are computed with the
    Standard Library's specification of binary64 arithmetic, [SpecFloat]:
    [SFmul] rounds the exact product to nearest, ties to even. *)

Definition prec : Z := 53.
Definition emax : Z := 1024.

Definition double : Type := spec_float.

(** The double of an integer, as an array length or a loop counter is
    one: exact below [2 ^ 53], rounded to nearest beyond. *)
Definition double_of_Z (n : Z) : double :=
  binary_normalize prec emax n 0 false.

(** The double a rational denotes: the quotient of its numerator by its
    denominator, rounded once to nearest, ties to even. The value of a
    double is taken to that double, so that [7 # 10] stands for the
    number written [0.7]. *)
Definition double_of_Q (q : Q) : double :=
  match Qnum q with
  | Z0 => S754_zero false
  | Zpos a =>
      SFdiv prec emax (S754_finite false a 0) (S754_finite false (Qden q) 0)
  | Zneg a =>
      SFdiv prec emax (S754_finite true a 0) (S754_finite false (Qden q) 0)
  end.

(** [x * y] *)
Definition double_mul (x y : double) : double := SFmul prec emax x y.

(** Neither [NaN] nor an infinity. *)
Definition double_finite (x : double) : bool :=
  match x with
  | S754_zero _ | S754_finite _ _ _ => true
  | _ => false
  end.

(** [Math.floor(x)] of a finite double, as the integer it is: the
    mantissa shifted by the exponent, rounding down. The products floored
    in the engine are those of a draw of [Math.random()] and a length,
    which are finite; [NaN] and the infinities, which are no integers, are
    given 0. *)
Definition Math_floor (x : double) : Z :=
  match x with
  | S754_finite s m e => Z.shiftl (cond_Zopp s (Zpos m)) e
  | _ => 0
  end.

(** A double in [0, 1): what [Math.random()] returns. *)
Definition unit_double (d : double) : bool :=
  valid_binary prec emax d && SFleb (S754_zero false) d
  && SFltb d (double_of_Z 1).

(** [Math.floor(r * n)] for a draw [r] and an integer [n]. *)
Definition floor_of_product (r : Q) (n : Z) : Z :=
  Math_floor (double_mul (double_of_Q r) (double_of_Z n)).

(** ** Shuffle engine *)

(** [[a[i], a[j]] = [a[j], a[i]]]. Both reads come first, then slot [i]
    and slot [j] are written in that order. In [enableShuffle] both indices
    are in range ([Math.random()] lies in [0, 1), so [j <= i]); on that
    domain the definition is the assignment. *)
Definition swap {A} (i j : nat) (l : list A) : list A :=
  match l !! i, l !! j with
  | Some a, Some b => <[j:=a]> (<[i:=b]> l)
  | _, _ => l
  end.

(** [Math.floor(r * (i + 1))] *)
Definition random_index (r : Q) (i : nat) : nat :=
  Z.to_nat (floor_of_product r (Z.of_nat i + 1)).

Section Shuffle.

(** [random k] is the value of the [k]-th call of [Math.random()]. *)
Variable random : nat -> Q.

(** The Fisher-Yates loop
    [for (let i = indices.length - 1; i > 0; i--) { ... }],
    entered at [i] after [k] draws. *)
Fixpoint fisher_yates (k i : nat) (indices : list Z) : list Z :=
  match i with
  | O => indices
  | S i' =>
      let j := random_index (random k) i in
      fisher_yates (S k) i' (swap i j indices)
  end.

(** [tracks.map((_, i) => i).filter(i => i !== currentIndex)] *)
Definition other_indices (tracks : list Track) (currentIndex : Z) : list Z :=
  filter (fun i => i <> currentIndex)
         (Z.of_nat <$> seq 0 (length tracks)).

(** [enableShuffle(tracks, currentIndex = 0)] *)
Definition enableShuffle (trks : list Track) (currentIndex : Z)
    (s : Player) : Player :=
  let s1 := set_originalQueue trks s in
  let indices := other_indices trks currentIndex in
  let indices' := fisher_yates 0 (length indices - 1) indices in
  let s2 := set_shuffledIndices (currentIndex :: indices') s1 in
  let s3 := set_contextQueue (js_get trks <$> shuffledIndices s2) s2 in
  let s4 := set_contextQueueIndex 0 s3 in
  let s5 := set_shuffle true s4 in
  set_queueIndex 0 (set_queue (contextQueue s5) s5).

(** [originalQueue.findIndex(t => t.youtube_id === id)]; [-1] when no
    element matches. *)
Definition findIndex (id : option string) (l : list Track) : Z :=
  match list_find (fun t => youtube_id t = id) l with
  | Some (i, _) => Z.of_nat i
  | None => -1
  end.

(** [disableShuffle()] *)
Definition disableShuffle (s : Player) : Player :=
  match originalQueue s, currentTrack s with
  | _ :: _, Some ct =>
      let currentIndex := findIndex (youtube_id ct) (originalQueue s) in
      let s1 := set_contextQueue (Some <$> originalQueue s) s in
      let s2 :=
        set_contextQueueIndex
          (if 0 <=? currentIndex then currentIndex else 0) s1 in
      let s3 := set_shuffle false s2 in
      let s4 := set_originalQueue [] (set_shuffledIndices [] s3) in
      set_queueIndex (contextQueueIndex s4) (set_queue (contextQueue s4) s4)
  | _, _ => s
  end.

(** [toggleShuffle()]: the new state and the returned flag. *)
Definition toggleShuffle (s : Player) : bool * Player :=
  let s' :=
    if shuffle (playbackContext s) then disableShuffle s
    else if 0 <? Z.of_nat (length (tracks (playbackContext s))) then
      enableShuffle (tracks (playbackContext s)) (queueIndex s) s
    else s in
  (shuffle (playbackContext s'), s').

(** [playContext(context)] *)
Definition playContext (context : ContextArg) (s : Player) : Player :=
  let s1 := set_temporaryQueue [] s in
  let s2 :=
    set_playbackContext
      (mkContext (arg_type context)
                 (or_string (arg_id context) None)
                 (or_string (arg_name context)
                            (getContextDisplayName (arg_type context)))
                 (arg_tracks context)
                 (arg_shuffle context)) s1 in
  let s3 :=
    if arg_shuffle context then
      enableShuffle (arg_tracks context)
                    (or_zero (arg_startIndex context)) s2
    else
      set_contextQueueIndex (or_zero (arg_startIndex context))
        (set_contextQueue (Some <$> arg_tracks context) s2) in
  let s4 := set_queueIndex (contextQueueIndex s3)
              (set_queue (contextQueue s3) s3) in
  if 0 <? Z.of_nat (length (contextQueue s4)) then
    loadAndPlayTrack (js_at (contextQueue s4) (contextQueueIndex s4)) s4
  else s4.

End Shuffle.

(** [clearQueue()] *)
Definition clearQueue (s : Player) : Player :=
  let s1 := set_queueIndex (-1) (set_queue [] s) in
  let s2 := set_temporaryQueue [] s1 in
  let s3 := set_contextQueueIndex (-1) (set_contextQueue [] s2) in
  let s4 := set_preloadCache [] s3 in
  set_playbackContext empty_context s4.

(** The [play] and [pause] events of the transport. *)
Definition onPlay (s : Player) : Player := set_isPlaying true s.
Definition onPause (s : Player) : Player := set_isPlaying false s.

(** ** State store *)

(** The object [JSON.parse] yields for the stored state. [savePlaybackState]
    writes every field and writes only when there is a current track, so
    [snap_track] is a track; the fields [loadPlaybackState] reads through
    [|| default] or an [if] are optional here as they are there. *)
Record Snapshot := mkSnapshot {
  snap_track : Track;
  snap_currentTime : Q;
  snap_isPlaying : bool;
  snap_queue : option (list (option Track));
  snap_queueIndex : option Z;
  snap_temporaryQueue : option (list Track);
  snap_contextQueue : option (list (option Track));
  snap_contextQueueIndex : option Z;
  snap_playbackContext : option PlaybackContext;
  snap_originalQueue : option (list Track);
  snap_shuffledIndices : option (list Z)
}.

(** [savePlaybackState()]: the state written to [localStorage], if any. *)
Definition savePlaybackState (s : Player) : option Snapshot :=
  match currentTrack s with
  | Some t =>
      Some (mkSnapshot t (audio_currentTime s) (isPlaying s)
              (Some (queue s)) (Some (queueIndex s))
              (Some (temporaryQueue s))
              (Some (contextQueue s)) (Some (contextQueueIndex s))
              (Some (playbackContext s))
              (Some (originalQueue s)) (Some (shuffledIndices s)))
  | None => None
  end.

(** [track.file_path && track.downloaded] *)
Definition is_local (t : Track) : bool :=
  truthy_string (file_path t) && downloaded t.

(** [loadPlaybackState()], given what [localStorage] holds. *)
Definition loadPlaybackState (saved : option Snapshot) (s : Player) : Player :=
  match saved with
  | None => s
  | Some state =>
      let s1 := set_queue (default [] (snap_queue state)) s in
      let s2 := set_queueIndex (or_zero (snap_queueIndex state)) s1 in
      let s3 :=
        set_temporaryQueue (default [] (snap_temporaryQueue state)) s2 in
      let s4 := set_contextQueue (default [] (snap_contextQueue state)) s3 in
      let s5 :=
        set_contextQueueIndex (or_zero (snap_contextQueueIndex state)) s4 in
      let s6 :=
        match snap_playbackContext state with
        | Some c => set_playbackContext c s5
        | None => s5
        end in
      let s7 :=
        match snap_originalQueue state with
        | Some q => set_originalQueue q s6
        | None => s6
        end in
      let s8 :=
        match snap_shuffledIndices state with
        | Some l => set_shuffledIndices l s7
        | None => s7
        end in
      let track := snap_track state in
      let s9 := set_currentTrack (Some track) s8 in
      let s10 :=
        if is_local track then
          if Qgtb (snap_currentTime state) 0
          then set_audio_currentTime (snap_currentTime state) s9
          else s9
        else set_savedRestoreTime (snap_currentTime state) s9 in
      set_isPlaying false (set_audio_paused true s10)
  end.

(** ** Preparation cache *)

Definition Cache := list (option string * CacheEntry).

(** [Map.prototype.has] *)
Definition cache_has (key : option string) (c : Cache) : bool :=
  bool_decide (key ∈ c.*1).

(** [Map.prototype.set]: an existing key keeps its place, a new key goes
    last. *)
Fixpoint cache_set (key : option string) (e : CacheEntry) (c : Cache) : Cache :=
  match c with
  | [] => [(key, e)]
  | (k, v) :: rest =>
      if decide (k = key) then (k, e) :: rest
      else (k, v) :: cache_set key e rest
  end.

(** [Map.prototype.delete] *)
Definition cache_delete (key : option string) (c : Cache) : Cache :=
  filter (fun kv => kv.1 <> key) c.

(** [entries.reduce((sum, [, data]) => sum + (data.duration || 0), 0)] *)
Definition total_duration (entries : Cache) : Z :=
  foldr (fun kv acc => entry_duration kv.2 + acc) 0 entries.

(** [entries.sort((a, b) => a[1].timestamp - b[1].timestamp)]: ascending
    by timestamp; [Array.prototype.sort] is stable. *)
Fixpoint insert_by_timestamp (x : option string * CacheEntry)
    (sorted : Cache) : Cache :=
  match sorted with
  | [] => [x]
  | y :: rest =>
      if timestamp x.2 <=? timestamp y.2 then x :: y :: rest
      else y :: insert_by_timestamp x rest
  end.

Definition sort_by_timestamp (entries : Cache) : Cache :=
  foldr insert_by_timestamp [] entries.

(** The eviction loop
    [while (entries.length > max || totalDuration > maxDuration)
       { const [key, data] = entries.shift(); ... }].
    With no entry left the running total is [0] and the loop has stopped;
    the first case is never reached with the condition true. *)
Fixpoint evict_oldest (entries : Cache) (totalDuration : Z) (c : Cache)
    : Cache :=
  match entries with
  | [] => c
  | (key, data) :: rest =>
      if (maxPreloadTracks <? Z.of_nat (length entries))
         || (maxPreloadDuration <? totalDuration)
      then evict_oldest rest (totalDuration - entry_duration data)
                        (cache_delete key c)
      else c
  end.

(** [cleanupPreloadCache()] on the cache. *)
Definition cleanup (c : Cache) : Cache :=
  if maxPreloadTracks <? Z.of_nat (length c) then
    let totalDuration := total_duration c in
    let entries := sort_by_timestamp c in
    evict_oldest entries totalDuration c
  else c.

Definition cleanupPreloadCache (s : Player) : Player :=
  set_preloadCache (cleanup (preloadCache s)) s.

Section Preload.

(** The resolver behind [ipcRenderer.invoke('get-stream-url', ...)]:
    the stream URL on success. *)
Variable resolve : option string -> option string.

(** [Date.now()] when the [n]-th track of a pass has been resolved. *)
Variable now : nat -> Z.

(** The selection loop of [preloadUpcomingTracks()]
    [for (let i = 1; i <= max && queueIndex + i < queue.length; i++)],
    entered at [i] with [fuel] iterations left before [i] exceeds
    [maxPreloadTracks]. Reading a field of an [undefined] slot throws:
    the pass ends there without preloading anything ([None]). *)
Fixpoint select_tracks (s : Player) (fuel : nat) (i : Z) (totalDuration : Z)
    : option (list Track) :=
  match fuel with
  | O => Some []
  | S fuel' =>
      if queueIndex s + i <? Z.of_nat (length (queue s)) then
        match js_at (queue s) (queueIndex s + i) with
        | None => None
        | Some track =>
            let d := or_zero (duration track) in
            if maxPreloadDuration <? totalDuration + d then Some []
            else if cache_has (youtube_id track) (preloadCache s)
                    || downloaded track
            then select_tracks s fuel' (i + 1) totalDuration
            else cons track <$>
                   select_tracks s fuel' (i + 1) (totalDuration + d)
        end
      else Some []
  end.

(** The resolution loop [for (const track of tracksToPreload)]. *)
Fixpoint resolve_tracks (n : nat) (ts : list Track) (c : Cache) : Cache :=
  match ts with
  | [] => c
  | track :: rest =>
      match resolve (youtube_id track) with
      | Some u =>
          let e := mkEntry u track (now n) (or_zero (duration track)) in
          resolve_tracks (S n) rest
            (cleanup (cache_set (youtube_id track) e c))
      | None => resolve_tracks (S n) rest c
      end
  end.

(** [preloadUpcomingTracks()] *)
Definition preloadUpcomingTracks (s : Player) : Player :=
  match select_tracks s (Z.to_nat maxPreloadTracks) 1 0 with
  | Some ts => set_preloadCache (resolve_tracks 0 ts (preloadCache s)) s
  | None => s
  end.

End Preload.

(** [onTrackEnded()], the [ended] event of the transport. *)
Definition onTrackEnded (s : Player) : Player :=
  if bool_decide (ctx_type (playbackContext s) = Some Online)
     && bool_decide (temporaryQueue s = [])
  then set_isPlaying false s
  else if (0 <? Z.of_nat (length (temporaryQueue s)))
          || (contextQueueIndex s <? Z.of_nat (length (contextQueue s)) - 1)
  then playNext s
  else set_isPlaying false s.

(** [playQueue(tracks, startIndex = 0)], the deprecated entry point kept
    for compatibility. It replaces both queues and leaves
    [playbackContext] as it was. *)
Definition playQueue (trks : list Track) (startIndex : Z) (s : Player)
    : Player :=
  let s1 := set_temporaryQueue [] s in
  let s2 :=
    set_contextQueueIndex startIndex (set_contextQueue (Some <$> trks) s1) in
  let s3 := set_queueIndex startIndex (set_queue (Some <$> trks) s2) in
  loadAndPlayTrack (js_get trks startIndex) s3.

(** The object [getQueueInfo()] returns. *)
Record QueueInfo := mkQueueInfo {
  info_currentTrack : option Track;
  info_temporaryQueue : list Track;
  temporaryQueueLength : Z;
  info_contextQueue : list (option Track);
  info_contextQueueIndex : Z;
  contextQueueRemaining : Z;
  info_playbackContext : PlaybackContext;
  combinedQueue : list (option Track);
  totalTracksInQueue : Z
}.

(** [getQueueInfo()] *)
Definition getQueueInfo (s : Player) : QueueInfo :=
  mkQueueInfo
    (currentTrack s)
    (temporaryQueue s)
    (Z.of_nat (length (temporaryQueue s)))
    (contextQueue s)
    (contextQueueIndex s)
    (Z.of_nat (length (contextQueue s)) - contextQueueIndex s - 1)
    (playbackContext s)
    (queue s)
    (Z.of_nat (length (temporaryQueue s))
     + (Z.of_nat (length (contextQueue s)) - contextQueueIndex s - 1)).

(** [n] calls of [playNext()] in a row. *)
Fixpoint playNext_times (n : nat) (s : Player) : Player :=
  match n with
  | O => s
  | S k => playNext_times k (playNext s)
  end.

(** ** Source selection and transport controls *)

(** [path.replace(/\\/g, '/')] *)
Fixpoint forward_slashes (path : string) : string :=
  match path with
  | EmptyString => EmptyString
  | String a rest =>
      String (if Ascii.eqb a "\"%char then "/"%char else a)
             (forward_slashes rest)
  end.

(** [`file:///${track.file_path.replace(/\\/g, '/')}`] *)
Definition file_url (t : Track) : string :=
  ("file:///" ++ forward_slashes (default "" (file_path t)))%string.

(** [Map.prototype.get] *)
Fixpoint cache_get (key : option string) (c : Cache) : option CacheEntry :=
  match c with
  | [] => None
  | (k, v) :: rest => if decide (k = key) then Some v else cache_get key rest
  end.

(** The value [loadAndPlayTrack(track)] gives [audio.src]: the local file
    of a downloaded track, else the preloaded URL, else what the resolver
    returns; [None] when the resolver fails and the method throws into its
    own [catch]. *)
Definition track_source (resolve : option string -> option string)
    (t : Track) (c : Cache) : option string :=
  if is_local t then Some (file_url t)
  else if cache_has (youtube_id t) c then url <$> cache_get (youtube_id t) c
  else resolve (youtube_id t).

(** The engine together with the properties of the [<audio>] element that
    the transport controls read and write: [src] (empty until something is
    loaded), [duration] ([NaN], here [None], until metadata is known) and
    [volume]; and the [previousVolume] field that [toggleMute] creates. *)
Record Transport := mkTransport {
  engine : Player;
  audio_src : option string;
  audio_duration : option Q;
  audio_volume : Q;
  previousVolume : option Q
}.

Definition set_engine (e : Player) (tr : Transport) : Transport :=
  mkTransport e (audio_src tr) (audio_duration tr) (audio_volume tr)
    (previousVolume tr).

Definition set_audio_src (v : option string) (tr : Transport) : Transport :=
  mkTransport (engine tr) v (audio_duration tr) (audio_volume tr)
    (previousVolume tr).

(** A number used as a condition: [NaN] and [0] are falsy. *)
Definition truthy_number (o : option Q) : bool :=
  match o with
  | Some q => negb (Qeq_bool q 0)
  | None => false
  end.

(** [skip(seconds)] *)
Definition skip (seconds : Q) (tr : Transport) : Transport :=
  match audio_duration tr with
  | Some d =>
      if truthy_string (audio_src tr) && truthy_number (Some d) then
        let newTime :=
          Qmax 0 (Qmin (audio_currentTime (engine tr) + seconds) d) in
        set_engine (set_audio_currentTime newTime (engine tr)) tr
      else tr
  | None => tr
  end.

(** [toggleMute()]; [previousVolume || 1] when unmuting. *)
Definition toggleMute (tr : Transport) : Transport :=
  if Qgtb (audio_volume tr) 0 then
    mkTransport (engine tr) (audio_src tr) (audio_duration tr) 0%Q
      (Some (audio_volume tr))
  else
    let v :=
      if truthy_number (previousVolume tr)
      then default 1%Q (previousVolume tr) else 1%Q in
    mkTransport (engine tr) (audio_src tr) (audio_duration tr) v
      (previousVolume tr).

(** [togglePlayPause()]. When playing it pauses the element. Otherwise, if
    no source is loaded and there is a current track (the state after a
    restore of a streamed track), it resolves the stream, seeks to the
    saved position and clears it, or returns on failure; then it starts
    the element if it has a source. *)
Definition togglePlayPause (resolve : option string -> option string)
    (tr : Transport) : Transport :=
  if isPlaying (engine tr) then
    set_engine (set_audio_paused true (engine tr)) tr
  else
    let loaded_tr :=
      match currentTrack (engine tr) with
      | Some ct =>
          if negb (truthy_string (audio_src tr)) then
            match resolve (youtube_id ct) with
            | Some u =>
                let e :=
                  if Qgtb (savedRestoreTime (engine tr)) 0 then
                    set_savedRestoreTime 0%Q
                      (set_audio_currentTime (savedRestoreTime (engine tr))
                         (engine tr))
                  else engine tr in
                Some (set_audio_src (Some u) (set_engine e tr))
            | None => None
            end
          else Some tr
      | None => Some tr
      end in
    match loaded_tr with
    | Some tr1 =>
        if truthy_string (audio_src tr1)
        then set_engine (set_audio_paused false (engine tr1)) tr1
        else tr1
    | None => tr
    end.

(** [loadPlaybackState()] on the transport: besides the engine fields it
    stages the local file of a downloaded track as the source. *)
Definition loadPlaybackState_transport (saved : option Snapshot)
    (tr : Transport) : Transport :=
  match saved with
  | None => tr
  | Some state =>
      let tr1 := set_engine (loadPlaybackState saved (engine tr)) tr in
      if is_local (snap_track state)
      then set_audio_src (Some (file_url (snap_track state))) tr1
      else tr1
  end.

(** The running total of the selection loop of [preloadUpcomingTracks]:
    the sum of [track.duration || 0]. *)
Definition sum_durations (ts : list Track) : Z :=
  foldr (fun t acc => or_zero (duration t) + acc) 0 ts.

(** The queue state of the engine: everything that decides what plays
    next. *)
Definition queue_state (s : Player) :=
  (currentTrack s, temporaryQueue s, contextQueue s, contextQueueIndex s,
   queue s, queueIndex s, playbackContext s, originalQueue s,
   shuffledIndices s, preloadCache s, loaded s).

(** ** Callers in the renderer *)

(** The [context] argument of [playTrackInContext]: [{ type, id, name }]. *)
Record ViewContext := mkViewContext {
  view_type : option ContextType;
  view_id : option string;
  view_name : option string
}.

(** [playTrackInContext(track, context)] of the renderer. [view] is what
    the DOM scan finds: [None] without an active view, else the track data
    of the rows of its track list (empty when it has none). *)
Definition playTrackInContext (random : nat -> Q) (track : Track)
    (context : option ViewContext) (view : option (list Track))
    (s : Player) : Player :=
  match context, view with
  | None, _ => playTrack track s
  | Some _, None => playTrack track s
  | Some ctx, Some allTracks =>
      if (length allTracks =? 0)%nat then playTrack track s
      else
        let startIndex := findIndex (youtube_id track) allTracks in
        playContext random
          (mkContextArg (view_type ctx)
             (or_string (view_id ctx) None)
             (or_string (view_name ctx) None)
             allTracks
             (Some (if 0 <=? startIndex then startIndex else 0))
             false) s
  end.

(** The end of [shufflePlay(viewType)] of the renderer, once the tracks of
    the view are fetched: nothing without tracks, else a shuffled context
    started at [Math.floor(Math.random() * tracks.length)]; [r] is that
    draw. *)
Definition shufflePlay (random : nat -> Q) (r : Q) (viewType : ContextType)
    (contextId contextName : option string) (trks : list Track)
    (s : Player) : Player :=
  if (length trks =? 0)%nat then s
  else
    let randomIndex := floor_of_product r (Z.of_nat (length trks)) in
    playContext random
      (mkContextArg (Some viewType) contextId contextName trks
         (Some randomIndex) true) s.

(** [addPlaylistToQueue(playlist, playNext)] of the renderer; [data] is
    what the playlist query returns, [None] when it fails. With [playNext]
    the tracks are added last to first. *)
Definition addPlaylistToQueue (data : option (list Track)) (playNext : bool)
    (s : Player) : Player :=
  match data with
  | Some trks =>
      if (0 <? length trks)%nat then
        if playNext
        then foldl (fun acc t => (addToQueue (Some t) true acc).2) s
                   (reverse trks)
        else foldl (fun acc t => (addToQueue (Some t) false acc).2) s trks
      else s
  | None => s
  end.

(** ** Vocabulary of the specification *)

(** A track [addToQueue] accepts: its [youtube_id] is truthy. *)
Definition valid_track (t : Track) : Prop :=
  truthy_string (youtube_id t) = true.

#[global] Instance valid_track_dec (t : Track) : Decision (valid_track t).
Proof. unfold valid_track. apply _. Defined.

(** [addToQueue(t, playNext)] for each track of a list, in order. *)
Definition addAllToQueue (playNext : bool) (ts : list Track) (s : Player)
    : Player :=
  foldl (fun acc t => (addToQueue (Some t) playNext acc).2) s ts.

(** The invariant of the data model: the index lies inside a non-empty
    context queue, and is [-1] exactly when the queue is empty. *)
Definition index_invariant (s : Player) : Prop :=
  (contextQueue s <> [] ->
     0 <= contextQueueIndex s < Z.of_nat (length (contextQueue s))) /\
  (contextQueueIndex s = -1 <-> contextQueue s = []).

(** ** Sample data *)

(** A streamed track of 200 seconds, and one of 1000 seconds. *)
Definition track_of (id : string) : Track :=
  mkTrack (Some id) (Some 200) false None.

Definition long_track (id : string) : Track :=
  mkTrack (Some id) (Some 1000) false None.

(** Six cache entries of 400 seconds, keyed [A] to [F], the later ones
    older. *)
Definition six_entries : Cache :=
  (fun n : nat =>
     (Some (String (Ascii.ascii_of_nat (65 + n)) EmptyString),
      mkEntry "stream" (track_of "T") (100 - Z.of_nat n) 400))
  <$> seq 0 6.

(** A random source that always draws one half. *)
Definition half : nat -> Q := fun _ => (1 # 2)%Q.

(** The playlist [A, B, C] as an argument of [playContext]. *)
Definition playlist_ABC (start : Z) (shuffled : bool) : ContextArg :=
  mkContextArg (Some Playlist) (Some "7"%string) (Some "Mix"%string)
    [track_of "A"; track_of "B"; track_of "C"] (Some start) shuffled.

(** A transport 95 seconds into a stream of 100 seconds, at volume 3/4;
    a transport with nothing loaded; and a snapshot of a streamed track
    saved 42 seconds in while playing. *)
Definition sample_transport : Transport :=
  mkTransport (set_audio_currentTime (95 # 1)%Q initial)
    (Some "https://stream/a"%string) (Some (100 # 1)%Q) (3 # 4)%Q None.

Definition idle_transport : Transport :=
  mkTransport initial None None 1%Q None.

Definition local_snapshot : Snapshot :=
  mkSnapshot
    (mkTrack (Some "L"%string) (Some 200) true
       (Some "C:\Music\l.mp3"%string))
    (17 # 1)%Q false None None None None None None None None.


(** * Properties *)

Lemma addToQueue_valid (t : Track) (playNext : bool) (s : Player) :
  valid_track t ->
  addToQueue (Some t) playNext s =
    (mkReport Returned None,
     rebuildCombinedQueue
       (set_temporaryQueue
          (if playNext then t :: temporaryQueue s else temporaryQueue s ++ [t])
          s)).
Proof.
  unfold valid_track, addToQueue. intros ->. simpl. by destruct playNext.
Qed.

(** [rebuildCombinedQueue] only writes the derived combined queue. *)
Lemma rebuildCombinedQueue_frame (s : Player) :
  temporaryQueue (rebuildCombinedQueue s) = temporaryQueue s /\
  contextQueue (rebuildCombinedQueue s) = contextQueue s /\
  contextQueueIndex (rebuildCombinedQueue s) = contextQueueIndex s /\
  currentTrack (rebuildCombinedQueue s) = currentTrack s /\
  loaded (rebuildCombinedQueue s) = loaded s.
Proof. done. Qed.

Lemma loaded_four {A} (l : list A) (a b c d : A) :
  (((l ++ [a]) ++ [b]) ++ [c]) ++ [d] = l ++ [a; b; c; d].
Proof. by rewrite <- !app_assoc. Qed.

(** ** The two-tier queue *)

(** C1. With context [A, B, C] at [B] and an empty temporary queue,
    [addToQueue(X, true)], [addToQueue(Y, false)], [addToQueue(Z, true)]
    leave the temporary queue as [Z, X, Y], and the next four [playNext()]
    calls play [Z], [X], [Y] and then [C]. *)
Theorem acceptance_scenario (s : Player) (A B C X Y Z' : Track) :
  contextQueue s = [Some A; Some B; Some C] ->
  contextQueueIndex s = 1 ->
  temporaryQueue s = [] ->
  valid_track X -> valid_track Y -> valid_track Z' ->
  let s1 := (addToQueue (Some X) true s).2 in
  let s2 := (addToQueue (Some Y) false s1).2 in
  let s3 := (addToQueue (Some Z') true s2).2 in
  let p1 := playNext s3 in
  let p2 := playNext p1 in
  let p3 := playNext p2 in
  let p4 := playNext p3 in
  temporaryQueue s3 = [Z'; X; Y] /\
  currentTrack p1 = Some Z' /\
  currentTrack p2 = Some X /\
  currentTrack p3 = Some Y /\
  currentTrack p4 = Some C /\
  contextQueueIndex p3 = 1 /\
  contextQueueIndex p4 = 2 /\
  temporaryQueue p4 = [] /\
  loaded p4 = loaded s ++ [Z'; X; Y; C].
Proof.
  intros Hq Hi Ht HX HY HZ. cbv zeta.
  rewrite (addToQueue_valid X true s HX).
  rewrite (addToQueue_valid Y false _ HY).
  rewrite (addToQueue_valid Z' true _ HZ).
  destruct s; simpl in *; subst.
  rewrite <- loaded_four. vm_compute. by split_and!.
Qed.

Lemma acceptance_scenario_witness :
  let s :=
    set_contextQueueIndex 1
      (set_contextQueue
         [Some (track_of "A"); Some (track_of "B"); Some (track_of "C")]
         initial) in
  let s3 :=
    (addToQueue (Some (track_of "Z")) true
       (addToQueue (Some (track_of "Y")) false
          (addToQueue (Some (track_of "X")) true s).2).2).2 in
  temporaryQueue s3 = [track_of "Z"; track_of "X"; track_of "Y"] /\
  loaded (playNext (playNext (playNext (playNext s3)))) =
    [track_of "Z"; track_of "X"; track_of "Y"; track_of "C"].
Proof.
  pose proof
    (acceptance_scenario
       (set_contextQueueIndex 1
          (set_contextQueue
             [Some (track_of "A"); Some (track_of "B"); Some (track_of "C")]
             initial))
       (track_of "A") (track_of "B") (track_of "C")
       (track_of "X") (track_of "Y") (track_of "Z")
       eq_refl eq_refl eq_refl eq_refl eq_refl eq_refl) as H.
  simpl in H. split; [apply H | apply H].
Defined.

Lemma js_at_in_range (l : list (option Track)) (i : Z) :
  0 <= i < Z.of_nat (length l) ->
  Forall is_Some l ->
  is_Some (js_at l i).
Proof.
  intros Hi Hall. unfold js_at, js_get.
  destruct (Z.ltb_spec i 0) as [|_]; [lia|].
  destruct (lookup_lt_is_Some_2 l (Z.to_nat i)) as [o Ho]; [lia|].
  rewrite Ho. simpl.
  eapply Forall_lookup_1 in Hall; eauto.
Qed.

(** C2. The tie-break rule of [playNext()]: a non-empty temporary queue
    gives up its first element, which is played, and the context index
    stays; otherwise, below the last context position the index moves on by
    one and the element at the new index is played; otherwise nothing
    changes and nothing is played. *)
Theorem playNext_tie_break (s : Player) :
  (forall t rest,
      temporaryQueue s = t :: rest ->
      temporaryQueue (playNext s) = rest /\
      contextQueueIndex (playNext s) = contextQueueIndex s /\
      contextQueue (playNext s) = contextQueue s /\
      currentTrack (playNext s) = Some t /\
      loaded (playNext s) = loaded s ++ [t]) /\
  (temporaryQueue s = [] ->
   contextQueueIndex s < Z.of_nat (length (contextQueue s)) - 1 ->
      temporaryQueue (playNext s) = [] /\
      contextQueueIndex (playNext s) = contextQueueIndex s + 1 /\
      contextQueue (playNext s) = contextQueue s /\
      (forall t,
          js_at (contextQueue s) (contextQueueIndex s + 1) = Some t ->
          currentTrack (playNext s) = Some t /\
          loaded (playNext s) = loaded s ++ [t]) /\
      (-1 <= contextQueueIndex s ->
       Forall is_Some (contextQueue s) ->
       is_Some (js_at (contextQueue s) (contextQueueIndex s + 1)))) /\
  (temporaryQueue s = [] ->
   ~ contextQueueIndex s < Z.of_nat (length (contextQueue s)) - 1 ->
      playNext s = s).
Proof.
  split; [|split].
  - intros t rest Ht. unfold playNext. rewrite Ht. done.
  - intros Ht Hlt. unfold playNext. rewrite Ht.
    destruct (Z.ltb_spec (contextQueueIndex s)
                (Z.of_nat (length (contextQueue s)) - 1)) as [_|]; [|lia].
    simpl.
    destruct (js_at (contextQueue s) (contextQueueIndex s + 1)) as [t'|] eqn:E.
    + simpl. split_and!; try done. by intros t [= <-].
    + simpl. split_and!; try done.
      intros Hlo Hall. rewrite <- E. apply js_at_in_range; [lia | done].
  - intros Ht Hge. unfold playNext. rewrite Ht.
    destruct (Z.ltb_spec (contextQueueIndex s)
                (Z.of_nat (length (contextQueue s)) - 1)); [lia | done].
Qed.

Lemma Qgtb_true (a b : Q) : Qgtb a b = true <-> (b < a)%Q.
Proof.
  unfold Qgtb. rewrite negb_true_iff, <- not_true_iff_false, Qle_bool_iff.
  split; [apply Qnot_le_lt | apply Qlt_not_le].
Qed.

Lemma Qgtb_false (a b : Q) : Qgtb a b = false <-> (a <= b)%Q.
Proof. unfold Qgtb. by rewrite negb_false_iff, Qle_bool_iff. Qed.

(** C3, as the code has it. [playPrevious()] never touches the temporary
    queue and never increases the context index. Past 3 seconds it only
    seeks to 0; otherwise, above index 0, it moves one position back and
    plays that element; at index 0 it only seeks to 0. With context
    [A, B, C] at index 1 and 10 seconds elapsed the call therefore restarts
    [B] and the index stays 1; a further call at 1 second elapsed moves to
    index 0 and plays [A]; one more call at 1 second restarts [A] with the
    index still 0. *)
Theorem playPrevious_rule :
  (forall s : Player,
      temporaryQueue (playPrevious s) = temporaryQueue s /\
      contextQueue (playPrevious s) = contextQueue s /\
      contextQueueIndex (playPrevious s) <= contextQueueIndex s /\
      ((3 < audio_currentTime s)%Q ->
         playPrevious s = set_audio_currentTime 0%Q s) /\
      ((audio_currentTime s <= 3)%Q -> 0 < contextQueueIndex s ->
         contextQueueIndex (playPrevious s) = contextQueueIndex s - 1 /\
         currentTrack (playPrevious s) =
           js_at (contextQueue s) (contextQueueIndex s - 1) /\
         audio_currentTime (playPrevious s) = audio_currentTime s /\
         forall t,
           js_at (contextQueue s) (contextQueueIndex s - 1) = Some t ->
           loaded (playPrevious s) = loaded s ++ [t]) /\
      ((audio_currentTime s <= 3)%Q -> contextQueueIndex s <= 0 ->
         playPrevious s = set_audio_currentTime 0%Q s)) /\
  (forall (s : Player) (A B C : Track),
      contextQueue s = [Some A; Some B; Some C] ->
      contextQueueIndex s = 1 ->
      currentTrack s = Some B ->
      let p1 := playPrevious (set_audio_currentTime 10%Q s) in
      let p2 := playPrevious (set_audio_currentTime 1%Q p1) in
      let p3 := playPrevious (set_audio_currentTime 1%Q p2) in
      (contextQueueIndex p1 = 1 /\ currentTrack p1 = Some B /\
       audio_currentTime p1 = 0%Q /\ loaded p1 = loaded s) /\
      (contextQueueIndex p2 = 0 /\ currentTrack p2 = Some A /\
       loaded p2 = loaded s ++ [A]) /\
      (contextQueueIndex p3 = 0 /\ currentTrack p3 = Some A /\
       audio_currentTime p3 = 0%Q /\ loaded p3 = loaded p2)).
Proof.
  split.
  - intros s. unfold playPrevious.
    destruct (Qgtb (audio_currentTime s) 3) eqn:Ht.
    + apply Qgtb_true in Ht. split_and!; simpl; try done; try lia.
      intros Hle. by apply Qlt_not_le in Ht.
    + apply Qgtb_false in Ht.
      destruct (Z.ltb_spec 0 (contextQueueIndex s)) as [Hi|Hi].
      * unfold loadAndPlayTrack. simpl.
        destruct (js_at (contextQueue s) (contextQueueIndex s - 1)) eqn:E;
          split_and!; simpl; try done; try lia.
        -- intros Hlt. by apply Qlt_not_le in Hlt.
        -- intros _ _. split_and!; try done. by intros t' [= <-].
        -- intros Hlt. by apply Qlt_not_le in Hlt.
      * split_and!; simpl; try done; try lia.
  - intros s A B C Hq Hi Hc. destruct s; simpl in *; subst.
    vm_compute. by split_and!.
Qed.

(** C3 as the specification words its scenario: at index 1 with 10 seconds
    elapsed the call would move to index 0 and play [A]. It does not: the
    index stays 1 and [B] stays current. *)
Lemma playPrevious_scenario_counterexample :
  let s :=
    set_audio_currentTime 10%Q
      (set_currentTrack (Some (track_of "B"))
         (set_contextQueueIndex 1
            (set_contextQueue
               [Some (track_of "A"); Some (track_of "B"); Some (track_of "C")]
               initial))) in
  contextQueueIndex (playPrevious s) = 1 /\
  currentTrack (playPrevious s) = Some (track_of "B") /\
  loaded (playPrevious s) = [] /\
  ~ (contextQueueIndex (playPrevious s) = 0 /\
     currentTrack (playPrevious s) = Some (track_of "A")).
Proof. simpl. repeat split; try done. intros [H _]. discriminate H. Qed.

(** C7, as the specification states it, fails: a call of [addToQueue]
    with no track does not fail with [InvalidTrackError], nor with any
    other error. It returns to its caller as an accepted call does, and
    what tells the two apart is the line on the error console. *)
Lemma addToQueue_invalid_counterexample :
  invalid_track None = true /\
  completion (addToQueue None true initial).1 = Returned /\
  completion (addToQueue None true initial).1
    <> Thrown "InvalidTrackError" /\
  completion (addToQueue (Some (track_of "X")) true initial).1
    = completion (addToQueue None true initial).1.
Proof. by split_and!. Qed.

(** C7, amended. A call of [addToQueue] with no track, or with a track
    that has no identity, is rejected at once without an error being
    thrown: it writes [Invalid track:] to the error console, returns, and
    leaves every field of the engine as it was. *)
Theorem addToQueue_invalid (track : option Track) (playNext : bool)
    (s : Player) :
  invalid_track track = true ->
  completion (addToQueue track playNext s).1 = Returned /\
  console_error (addToQueue track playNext s).1
    = Some "Invalid track:"%string /\
  (addToQueue track playNext s).2 = s.
Proof.
  unfold invalid_track, addToQueue. destruct track as [t|]; [|done].
  by intros ->.
Qed.

Lemma addToQueue_invalid_witness :
  let s := playNext (set_temporaryQueue [track_of "X"] initial) in
  (addToQueue None true s).2 = s /\
  console_error (addToQueue None true s).1
    = Some "Invalid track:"%string /\
  (addToQueue (Some (mkTrack None (Some 10) false None)) false s).2 = s /\
  (addToQueue (Some (mkTrack (Some "") None false None)) false s).2 = s.
Proof.
  intros s.
  destruct (addToQueue_invalid None true s) as (_ & Hlog & Hstate);
    [reflexivity|].
  split_and!; [exact Hstate | exact Hlog | |].
  - apply (addToQueue_invalid
             (Some (mkTrack None (Some 10) false None)) false).
    reflexivity.
  - apply (addToQueue_invalid
             (Some (mkTrack (Some "") None false None)) false).
    reflexivity.
Defined.

(** C8. Whatever snapshot is restored, and whatever play/pause flag it
    stores, the engine is paused afterwards: [isPlaying] is [false], the
    transport is paused and nothing was asked to play. *)
Theorem restore_is_paused (snap : Snapshot) (s : Player) :
  isPlaying (loadPlaybackState (Some snap) s) = false /\
  audio_paused (loadPlaybackState (Some snap) s) = true /\
  loaded (loadPlaybackState (Some snap) s) = loaded s /\
  currentTrack (loadPlaybackState (Some snap) s) = Some (snap_track snap).
Proof.
  unfold loadPlaybackState. repeat split; simpl.
  - destruct (snap_playbackContext snap), (snap_originalQueue snap),
      (snap_shuffledIndices snap), (is_local (snap_track snap)),
      (Qgtb (snap_currentTime snap) 0); done.
  - destruct (snap_playbackContext snap), (snap_originalQueue snap),
      (snap_shuffledIndices snap), (is_local (snap_track snap)),
      (Qgtb (snap_currentTime snap) 0); done.
Qed.

(** ** Shuffle *)

(** What [enableShuffle] writes and what it leaves alone. *)
Lemma enableShuffle_fields (random : nat -> Q) (trks : list Track)
    (currentIndex : Z) (s : Player) :
  let s' := enableShuffle random trks currentIndex s in
  originalQueue s' = trks /\
  contextQueueIndex s' = 0 /\
  js_at (contextQueue s') 0 = js_get trks currentIndex /\
  shuffle (playbackContext s') = true /\
  tracks (playbackContext s') = tracks (playbackContext s) /\
  currentTrack s' = currentTrack s /\
  temporaryQueue s' = temporaryQueue s /\
  loaded s' = loaded s.
Proof.
  simpl. by split_and!.
Qed.

Lemma findIndex_found (id : option string) (l : list Track) (t : Track) :
  t ∈ l -> youtube_id t = id ->
  exists i t',
    findIndex id l = Z.of_nat i /\ l !! i = Some t' /\ youtube_id t' = id /\
    forall j u, (j < i)%nat -> l !! j = Some u -> youtube_id u <> id.
Proof.
  intros Hin Hid. unfold findIndex.
  destruct (list_find_elem_of (fun u => youtube_id u = id) l t Hin Hid)
    as [[i t'] Hf].
  rewrite Hf. apply list_find_Some in Hf as (Hl & Hp & Hleast).
  exists i, t'. split_and!; try done.
  intros j u Hj Hu. by eapply Hleast.
Qed.

(** C10. [toggleShuffle()] never changes the temporary queue, whichever
    way it toggles; and with shuffle off and no tracks in the active
    context it changes nothing at all and returns [false]. *)
Theorem toggleShuffle_frame (random : nat -> Q) (s : Player) :
  temporaryQueue (toggleShuffle random s).2 = temporaryQueue s /\
  (shuffle (playbackContext s) = true ->
     shuffle (playbackContext (toggleShuffle random s).2) = false ->
     contextQueue (toggleShuffle random s).2 = Some <$> originalQueue s) /\
  (shuffle (playbackContext s) = false ->
   tracks (playbackContext s) = [] ->
     toggleShuffle random s = (false, s)).
Proof.
  unfold toggleShuffle. split_and!.
  - destruct (shuffle (playbackContext s)); simpl.
    + unfold disableShuffle.
      by destruct (originalQueue s), (currentTrack s).
    + by destruct (0 <? _).
  - intros Hon. rewrite Hon. simpl. unfold disableShuffle.
    destruct (originalQueue s) eqn:Eo, (currentTrack s) eqn:Ec; simpl;
      try done; intros Hs; congruence.
  - intros Hs Ht. rewrite Hs, Ht. simpl. by rewrite Hs.
Qed.

Lemma toggleShuffle_on (random : nat -> Q) (s : Player) :
  shuffle (playbackContext s) = false ->
  tracks (playbackContext s) <> [] ->
  (toggleShuffle random s).2 =
    enableShuffle random (tracks (playbackContext s)) (queueIndex s) s.
Proof.
  intros Hs Ht. unfold toggleShuffle. rewrite Hs.
  by destruct (tracks (playbackContext s)).
Qed.

(** C6. With shuffle off, and the current track among the tracks of the
    context (which are therefore not empty), two [toggleShuffle()] calls
    in a row leave the context queue in the order of the context's track
    list, shuffle off again, and the context index at the first position
    holding the id of the current track; with unique ids that is the
    position the track had. *)
Theorem toggleShuffle_twice (random random' : nat -> Q) (s : Player)
    (ct : Track) :
  shuffle (playbackContext s) = false ->
  currentTrack s = Some ct ->
  ct ∈ tracks (playbackContext s) ->
  let s2 := (toggleShuffle random' (toggleShuffle random s).2).2 in
  contextQueue s2 = Some <$> tracks (playbackContext s) /\
  tracks (playbackContext s2) = tracks (playbackContext s) /\
  shuffle (playbackContext s2) = false /\
  currentTrack s2 = Some ct /\
  temporaryQueue s2 = temporaryQueue s /\
  (contextQueue s = Some <$> tracks (playbackContext s) ->
     contextQueue s2 = contextQueue s) /\
  (exists i t,
      contextQueueIndex s2 = Z.of_nat i /\
      js_at (contextQueue s2) (contextQueueIndex s2) = Some t /\
      tracks (playbackContext s) !! i = Some t /\
      youtube_id t = youtube_id ct /\
      forall j u, (j < i)%nat ->
        tracks (playbackContext s) !! j = Some u ->
        youtube_id u <> youtube_id ct) /\
  (forall i,
      NoDup (youtube_id <$> tracks (playbackContext s)) ->
      tracks (playbackContext s) !! i = Some ct ->
      contextQueueIndex s2 = Z.of_nat i).
Proof.
  intros Hs Hc Hin.
  assert (Hne : tracks (playbackContext s) <> []).
  { intros E. rewrite E in Hin. by apply elem_of_nil in Hin. }
  cbv zeta. rewrite (toggleShuffle_on random s Hs Hne).
  set (s1 := enableShuffle random (tracks (playbackContext s)) (queueIndex s) s).
  destruct (enableShuffle_fields random (tracks (playbackContext s))
              (queueIndex s) s)
    as (Ho & _ & _ & Hsh & Htr & Hct & Htq & _).
  fold s1 in Ho, Hsh, Htr, Hct, Htq.
  destruct (findIndex_found (youtube_id ct) _ ct Hin eq_refl)
    as (i & t & Hfi & Hl & Hid & Hleast).
  assert (Hq : exists x rest, tracks (playbackContext s) = x :: rest).
  { destruct (tracks (playbackContext s)); [done | eauto]. }
  destruct Hq as (x & rest & Hq).
  unfold toggleShuffle. rewrite Hsh. unfold disableShuffle.
  rewrite Ho, Hct, Hc, Hq, <- Hq. simpl.
  rewrite Hfi.
  destruct (Z.leb_spec 0 (Z.of_nat i)) as [_|]; [|lia].
  split_and!; try done.
  - exists i, t. split_and!; try done.
    unfold js_at, js_get. destruct (Z.ltb_spec (Z.of_nat i) 0); [lia|].
    by rewrite Nat2Z.id, list_lookup_fmap, Hl.
  - intros i' Hnd Hl'. f_equal.
    eapply (NoDup_lookup _ i i' (youtube_id ct)); [exact Hnd | |].
    + by rewrite list_lookup_fmap, Hl, <- Hid.
    + by rewrite list_lookup_fmap, Hl'.
Qed.

Lemma toggleShuffle_twice_witness :
  let s := playContext half (playlist_ABC 1 false) initial in
  let s2 := (toggleShuffle half (toggleShuffle half s).2).2 in
  (shuffle (playbackContext s) = false /\
   currentTrack s = Some (track_of "B")) /\
  contextQueue s2 =
    [Some (track_of "A"); Some (track_of "B"); Some (track_of "C")] /\
  contextQueueIndex s2 = 1.
Proof.
  assert (Hin : track_of "B" ∈
                tracks (playbackContext
                          (playContext half (playlist_ABC 1 false) initial))).
  { apply list_elem_of_further, list_elem_of_here. }
  destruct (toggleShuffle_twice half half
              (playContext half (playlist_ABC 1 false) initial)
              (track_of "B") eq_refl eq_refl Hin)
    as (Hq & _ & _ & _ & _ & _ & _ & Hidx).
  split; [done|]. split; [exact Hq|].
  apply (Hidx 1%nat); [|done].
  by apply (bool_decide_unpack _).
Defined.

(** *** The permutation built by [enableShuffle] *)

Lemma insert_Permutation_delete {A} (l : list A) (i : nat) (x y : A) :
  l !! i = Some x -> <[i:=y]> l ≡ₚ y :: delete i l.
Proof.
  intros Hl.
  assert (Hlt : (i < length l)%nat) by (by eapply lookup_lt_Some).
  rewrite (delete_Permutation (<[i:=y]> l) i y)
    by (by apply list_lookup_insert_eq).
  f_equiv. rewrite !delete_take_drop, take_insert_ge, drop_insert_lt by lia.
  done.
Qed.

Lemma swap_Permutation {A} (i j : nat) (l : list A) : swap i j l ≡ₚ l.
Proof.
  unfold swap.
  destruct (l !! i) as [a|] eqn:Hi; [|done].
  destruct (l !! j) as [b|] eqn:Hj; [|done].
  destruct (decide (i = j)) as [->|Hne].
  - rewrite list_insert_insert_eq. by rewrite list_insert_id.
  - assert (Hj' : <[i:=b]> l !! j = Some b)
      by (by rewrite list_lookup_insert_ne).
    trans (a :: delete j (<[i:=b]> l));
      [by apply (insert_Permutation_delete _ j b a)|].
    trans (a :: delete i l); [|symmetry; by apply delete_Permutation].
    apply Permutation_skip, (Permutation_cons_inv (a:=b)).
    trans (<[i:=b]> l); [symmetry; by apply delete_Permutation|].
    by apply (insert_Permutation_delete l i a b).
Qed.

Lemma fisher_yates_Permutation (random : nat -> Q) (i k : nat)
    (indices : list Z) :
  fisher_yates random k i indices ≡ₚ indices.
Proof.
  revert k indices. induction i as [|i IH]; intros k indices; [done|].
  simpl. rewrite IH. apply swap_Permutation.
Qed.

Lemma pinned_indices_Permutation (trks : list Track) (c : Z) :
  0 <= c < Z.of_nat (length trks) ->
  c :: other_indices trks c ≡ₚ Z.of_nat <$> seq 0 (length trks).
Proof.
  intros Hc. unfold other_indices.
  assert (Hnd : NoDup (Z.of_nat <$> seq 0 (length trks))).
  { apply (NoDup_fmap_2 _), NoDup_seq. }
  assert (Hin : c ∈ Z.of_nat <$> seq 0 (length trks)).
  { apply list_elem_of_fmap. exists (Z.to_nat c). split; [lia|].
    apply elem_of_seq. lia. }
  apply NoDup_Permutation; [| done |].
  - apply NoDup_cons. split; [|by apply NoDup_filter].
    intros [Hf _]%list_elem_of_filter. done.
  - intros x. rewrite elem_of_cons, list_elem_of_filter.
    destruct (decide (x = c)) as [->|Hne]; split.
    + done.
    + by left.
    + by intros [?|[_ ?]].
    + by right.
Qed.

Lemma js_get_all_indices (trks : list Track) :
  js_get trks <$> (Z.of_nat <$> seq 0 (length trks)) = Some <$> trks.
Proof.
  apply list_eq. intros i. rewrite !list_lookup_fmap.
  destruct (decide (i < length trks)%nat) as [Hlt|Hge].
  - rewrite lookup_seq_lt by done. simpl. unfold js_get.
    destruct (Z.ltb_spec (Z.of_nat i) 0); [lia|].
    rewrite Nat2Z.id.
    destruct (lookup_lt_is_Some_2 trks i Hlt) as [x Hx]. by rewrite Hx.
  - rewrite lookup_seq_ge by lia. simpl.
    by rewrite lookup_ge_None_2 by lia.
Qed.

(** With the pinned index inside the track list, [enableShuffle] puts the
    track at that index first and the context queue is a permutation of
    the track list. *)
Lemma enableShuffle_pinned_permutation (random : nat -> Q)
    (trks : list Track) (c : Z) (s : Player) :
  0 <= c < Z.of_nat (length trks) ->
  js_at (contextQueue (enableShuffle random trks c s)) 0 = js_get trks c /\
  is_Some (js_get trks c) /\
  contextQueue (enableShuffle random trks c s) ≡ₚ Some <$> trks.
Proof.
  intros Hc. split_and!.
  - apply enableShuffle_fields.
  - unfold js_get. destruct (Z.ltb_spec c 0); [lia|].
    apply lookup_lt_is_Some_2. lia.
  - unfold enableShuffle. cbn [contextQueue set_queueIndex set_queue set_shuffle
      set_playbackContext set_contextQueueIndex set_contextQueue
      shuffledIndices set_shuffledIndices].
    rewrite <- js_get_all_indices.
    apply fmap_Permutation.
    rewrite <- (pinned_indices_Permutation trks c Hc).
    f_equiv. apply fisher_yates_Permutation.
Qed.

(** The acceptance case of the specification:
    [playContext({tracks: [A, B, C], shuffle: true, startIndex: 1})]. *)
Lemma playContext_shuffle_ABC (random : nat -> Q) (s : Player) :
  let s' := playContext random (playlist_ABC 1 true) s in
  js_at (contextQueue s') 0 = Some (track_of "B") /\
  contextQueueIndex s' = 0 /\
  currentTrack s' = Some (track_of "B") /\
  contextQueue s' ≡ₚ
    [Some (track_of "A"); Some (track_of "B"); Some (track_of "C")].
Proof.
  cbv zeta. unfold playContext.
  cbn [arg_shuffle arg_tracks arg_startIndex playlist_ABC or_zero default].
  set (s2 := set_playbackContext _ _).
  destruct (enableShuffle_pinned_permutation random
              [track_of "A"; track_of "B"; track_of "C"] 1 s2)
    as (Hhead & _ & Hperm); [simpl; lia|].
  destruct (enableShuffle_fields random
              [track_of "A"; track_of "B"; track_of "C"] 1 s2)
    as (_ & Hidx & _).
  set (s3 := enableShuffle _ _ _ _) in *.
  cbn [contextQueue contextQueueIndex set_queueIndex set_queue].
  rewrite Hidx, Hhead.
  assert (Hlen : length (contextQueue s3) = 3%nat).
  { by rewrite Hperm. }
  rewrite Hlen. simpl. split_and!; try done.
Qed.

(** C5. [enableShuffle] pins the index it is given, and [toggleShuffle()]
    gives it the index of the combined queue, [queueIndex], which
    [rebuildCombinedQueue] has reset to 0. After
    [playContext({tracks: [A, B, C], startIndex: 1})] and one
    [addToQueue(X)], the current track is [B], yet turning shuffle on puts
    [A] at index 0 of the context queue (still a permutation of the track
    list) and leaves [B] as the current track. *)
Theorem toggleShuffle_pins_combined_index (random0 random : nat -> Q) :
  let s0 := playContext random0 (playlist_ABC 1 false) initial in
  let s1 := (addToQueue (Some (track_of "X")) false s0).2 in
  let s2 := (toggleShuffle random s1).2 in
  (currentTrack s1 = Some (track_of "B") /\
   js_at (contextQueue s1) (contextQueueIndex s1) = Some (track_of "B") /\
   queueIndex s1 = 0) /\
  shuffle (playbackContext s2) = true /\
  currentTrack s2 = Some (track_of "B") /\
  contextQueueIndex s2 = 0 /\
  js_at (contextQueue s2) 0 = Some (track_of "A") /\
  js_at (contextQueue s2) 0 <> currentTrack s2 /\
  contextQueue s2 ≡ₚ
    [Some (track_of "A"); Some (track_of "B"); Some (track_of "C")].
Proof.
  cbv zeta. split; [done|].
  set (s1 := (addToQueue _ _ _).2).
  assert (Hs : shuffle (playbackContext s1) = false) by done.
  assert (Ht : tracks (playbackContext s1) <> []) by done.
  rewrite (toggleShuffle_on random s1 Hs Ht).
  change (tracks (playbackContext s1))
    with [track_of "A"; track_of "B"; track_of "C"].
  change (queueIndex s1) with 0.
  destruct (enableShuffle_pinned_permutation random
              [track_of "A"; track_of "B"; track_of "C"] 0 s1)
    as (Hhead & _ & Hperm); [simpl; lia|].
  rewrite Hhead. split_and!; try done.
Qed.

(** ** The context index *)

Lemma index_invariant_ext (s s' : Player) :
  contextQueue s' = contextQueue s ->
  contextQueueIndex s' = contextQueueIndex s ->
  index_invariant s -> index_invariant s'.
Proof. unfold index_invariant. by intros -> ->. Qed.

Lemma index_invariant_intro (s : Player) :
  0 <= contextQueueIndex s < Z.of_nat (length (contextQueue s)) ->
  index_invariant s.
Proof.
  intros Hi. split; [done|]. split; [lia|].
  intros E. rewrite E in Hi. simpl in Hi. lia.
Qed.

Lemma loadAndPlayTrack_contextQueue (track : option Track) (s : Player) :
  contextQueue (loadAndPlayTrack track s) = contextQueue s.
Proof. by destruct track. Qed.

Lemma loadAndPlayTrack_contextQueueIndex (track : option Track)
    (s : Player) :
  contextQueueIndex (loadAndPlayTrack track s) = contextQueueIndex s.
Proof. by destruct track. Qed.

Lemma loadAndPlayTrack_temporaryQueue (track : option Track) (s : Player) :
  temporaryQueue (loadAndPlayTrack track s) = temporaryQueue s.
Proof. by destruct track. Qed.

(** Closes [index_invariant s'] when [s'] has the context queue and the
    index of a state [H : index_invariant s]. *)
Ltac same_context H :=
  eapply index_invariant_ext; [..|exact H]; simpl;
  rewrite ?loadAndPlayTrack_contextQueue,
          ?loadAndPlayTrack_contextQueueIndex;
  done.

Lemma findIndex_range (id : option string) (l : list Track) :
  -1 <= findIndex id l < Z.of_nat (length l).
Proof.
  unfold findIndex.
  destruct (list_find _ l) as [[i t]|] eqn:E; [|lia].
  apply list_find_Some in E as (Hl & _). apply lookup_lt_Some in Hl. lia.
Qed.

Lemma index_invariant_enableShuffle (random : nat -> Q) (trks : list Track)
    (c : Z) (s : Player) :
  index_invariant (enableShuffle random trks c s).
Proof. apply index_invariant_intro. simpl. lia. Qed.

Lemma index_invariant_disableShuffle (s : Player) :
  index_invariant s -> index_invariant (disableShuffle s).
Proof.
  intros Hinv. unfold disableShuffle.
  destruct (originalQueue s) as [|x rest] eqn:Eo; [done|].
  destruct (currentTrack s) as [ct|]; [|done].
  apply index_invariant_intro. simpl.
  pose proof (findIndex_range (youtube_id ct) (x :: rest)) as Hr.
  simpl in Hr. rewrite length_fmap.
  destruct (Z.leb_spec 0 (findIndex (youtube_id ct) (x :: rest))); lia.
Qed.

(** C9, as the code has it. The index invariant holds after [playTrack],
    after [clearQueue] and after a shuffled [playContext]; after an
    unshuffled [playContext] whose start index lies inside its track list;
    after [addToQueue], [playNext], [playPrevious] and [toggleShuffle] when
    it held before the call; and after restoring a snapshot saved from a
    state in which it held. *)
Theorem index_invariant_operations (random : nat -> Q) (s : Player) :
  (forall t, index_invariant (playTrack t s)) /\
  index_invariant (clearQueue s) /\
  (forall c, arg_shuffle c = true ->
     index_invariant (playContext random c s)) /\
  (forall c, arg_shuffle c = false ->
     0 <= or_zero (arg_startIndex c) < Z.of_nat (length (arg_tracks c)) ->
     index_invariant (playContext random c s)) /\
  (index_invariant s ->
     (forall t b, index_invariant (addToQueue t b s).2) /\
     index_invariant (playNext s) /\
     index_invariant (playPrevious s) /\
     index_invariant (toggleShuffle random s).2) /\
  (forall s0 snap,
     index_invariant s0 -> savePlaybackState s0 = Some snap ->
     index_invariant (loadPlaybackState (Some snap) s)).
Proof.
  split_and!.
  - intros t. apply index_invariant_intro. simpl. lia.
  - by split.
  - intros c Hc. unfold playContext. rewrite Hc.
    set (s3 := enableShuffle _ _ _ _).
    assert (H3 : index_invariant s3) by apply index_invariant_enableShuffle.
    destruct (0 <? _); same_context H3.
  - intros c Hc Hr. unfold playContext. rewrite Hc.
    set (s3 := set_contextQueueIndex _ _).
    assert (H3 : index_invariant s3).
    { apply index_invariant_intro. simpl. by rewrite length_fmap. }
    destruct (0 <? _); same_context H3.
  - intros Hinv. split_and!.
    + intros t b. unfold addToQueue.
      destruct t as [t|]; [|done].
      destruct (negb _); [done|].
      destruct b; same_context Hinv.
    + unfold playNext. destruct (temporaryQueue s) as [|t rest].
      * destruct (Z.ltb_spec (contextQueueIndex s)
                    (Z.of_nat (length (contextQueue s)) - 1)) as [Hlt|];
          [|done].
        assert (H1 : index_invariant
                       (set_contextQueueIndex (contextQueueIndex s + 1) s)).
        { apply index_invariant_intro. simpl.
          destruct Hinv as [Hin Hiff].
          destruct (contextQueue s) as [|x l] eqn:E.
          - simpl in Hlt. assert (contextQueueIndex s = -1) by by apply Hiff.
            lia.
          - specialize (Hin ltac:(done)). lia. }
        simpl. destruct (js_at _ _); same_context H1.
      * same_context Hinv.
    + unfold playPrevious. destruct (Qgtb _ _); [same_context Hinv|].
      destruct (Z.ltb_spec 0 (contextQueueIndex s)) as [Hlt|];
        [|same_context Hinv].
      assert (H1 : index_invariant
                     (set_contextQueueIndex (contextQueueIndex s - 1) s)).
      { apply index_invariant_intro. simpl.
        destruct Hinv as [Hin Hiff].
        destruct (contextQueue s) as [|x l] eqn:E.
        - assert (contextQueueIndex s = -1) by by apply Hiff. lia.
        - specialize (Hin ltac:(done)). lia. }
      same_context H1.
    + unfold toggleShuffle. simpl. destruct (shuffle (playbackContext s)).
      * by apply index_invariant_disableShuffle.
      * destruct (0 <? _); [apply index_invariant_enableShuffle | done].
  - intros s0 snap Hinv Hsave. unfold savePlaybackState in Hsave.
    destruct (currentTrack s0) as [t|]; [|done]. injection Hsave as <-.
    unfold loadPlaybackState. simpl.
    destruct (is_local t), (Qgtb (audio_currentTime s0) 0);
      same_context Hinv.
Qed.

(** C9 as the specification states it fails for [playContext] on a
    context without tracks: the queue is empty and the index is 0. *)
Lemma index_invariant_counterexample :
  let s :=
    playContext half
      (mkContextArg (Some Playlist) None None [] None false) initial in
  contextQueue s = [] /\ contextQueueIndex s = 0 /\ ~ index_invariant s.
Proof.
  simpl. split_and!; try done. intros [_ [_ H]]. by specialize (H eq_refl).
Qed.

(** ** The preparation cache *)

Lemma total_duration_Permutation (c1 c2 : Cache) :
  c1 ≡ₚ c2 -> total_duration c1 = total_duration c2.
Proof.
  unfold total_duration.
  induction 1 as [|x l1 l2 _ IH|x y l|l1 l2 l3 _ IH1 _ IH2]; simpl.
  - done.
  - by rewrite IH.
  - lia.
  - congruence.
Qed.

Lemma insert_by_timestamp_Permutation (x : option string * CacheEntry)
    (l : Cache) :
  insert_by_timestamp x l ≡ₚ x :: l.
Proof.
  induction l as [|y l IH]; simpl; [done|].
  destruct (timestamp x.2 <=? timestamp y.2); [done|].
  rewrite IH. apply Permutation_swap.
Qed.

Lemma sort_by_timestamp_Permutation (c : Cache) : sort_by_timestamp c ≡ₚ c.
Proof.
  induction c as [|x c IH]; simpl; [done|].
  by rewrite insert_by_timestamp_Permutation, IH.
Qed.

Lemma filter_Forall_id {A} (P : A -> Prop) `{!forall x, Decision (P x)}
    (l : list A) :
  Forall P l -> filter P l = l.
Proof.
  induction 1 as [|x l Hx _ IH]; [done|].
  by rewrite filter_cons_True, IH.
Qed.

(** Deleting the key of the first entry leaves the other entries, when the
    keys are unique. *)
Lemma cache_delete_head (key : option string) (data : CacheEntry)
    (rest c : Cache) :
  (key, data) :: rest ≡ₚ c -> NoDup c.*1 ->
  rest ≡ₚ cache_delete key c /\ NoDup (cache_delete key c).*1.
Proof.
  intros Hperm Hnd. unfold cache_delete.
  set (P := fun kv : option string * CacheEntry => kv.1 <> key).
  split.
  - rewrite <- Hperm. rewrite (filter_cons_False P) by (unfold P; simpl; tauto).
    assert (Hnd' : NoDup (((key, data) :: rest).*1)) by by rewrite Hperm.
    simpl in Hnd'. apply NoDup_cons in Hnd' as [Hnotin _].
    rewrite (filter_Forall_id P rest); [done|].
    apply Forall_forall. intros [k v] Hin E. simpl in E. subst k.
    apply Hnotin. apply list_elem_of_fmap. by exists (key, v).
  - clear Hperm. induction c as [|[k v] c IH]; [constructor|].
    simpl in Hnd. apply NoDup_cons in Hnd as [Hk Hnd].
    rewrite (filter_cons P). destruct (decide _) as [Hne|]; [|by apply IH].
    simpl. apply NoDup_cons. split; [|by apply IH].
    intros Hin. apply Hk.
    apply list_elem_of_fmap in Hin as ([k' v'] & -> & Hin).
    apply list_elem_of_filter in Hin as [_ Hin].
    apply list_elem_of_fmap. by exists (k', v').
Qed.

(** The eviction loop stops with both bounds established. *)
Lemma evict_oldest_bounds (entries : Cache) :
  forall (totalDuration : Z) (c : Cache),
    entries ≡ₚ c -> NoDup c.*1 ->
    totalDuration = total_duration entries ->
    Z.of_nat (length (evict_oldest entries totalDuration c))
      <= maxPreloadTracks /\
    total_duration (evict_oldest entries totalDuration c)
      <= maxPreloadDuration.
Proof.
  induction entries as [|[key data] rest IH]; intros total c Hperm Hnd Htot.
  - apply Permutation_nil_l in Hperm. subst c. simpl.
    unfold maxPreloadTracks, maxPreloadDuration. lia.
  - cbn [evict_oldest].
    destruct (orb _ _) eqn:Hcond.
    + destruct (cache_delete_head key data rest c Hperm Hnd) as [Hp' Hnd'].
      apply IH; [done | done |]. subst total. simpl. lia.
    + apply orb_false_iff in Hcond as [H1 H2].
      apply Z.ltb_ge in H1, H2.
      rewrite <- (total_duration_Permutation _ _ Hperm), <- Hperm.
      by subst total.
Qed.

(** X6. What [cleanupPreloadCache] guarantees on a cache with unique keys:
    the count bound always; the duration bound when the pass found more
    than [maxPreloadTracks] entries; with at most that many entries the
    cache is left as it is. *)
Theorem cleanup_bounds (c : Cache) :
  NoDup c.*1 ->
  Z.of_nat (length (cleanup c)) <= maxPreloadTracks /\
  (maxPreloadTracks < Z.of_nat (length c) ->
     total_duration (cleanup c) <= maxPreloadDuration) /\
  (Z.of_nat (length c) <= maxPreloadTracks -> cleanup c = c).
Proof.
  intros Hnd. unfold cleanup.
  destruct (Z.ltb_spec maxPreloadTracks (Z.of_nat (length c))) as [Hgt|Hle].
  - destruct (evict_oldest_bounds (sort_by_timestamp c) (total_duration c) c)
      as [Hn Hd].
    + apply sort_by_timestamp_Permutation.
    + done.
    + symmetry. apply total_duration_Permutation,
        sort_by_timestamp_Permutation.
    + split_and!; [done | done | lia].
  - split_and!; [done | lia | done].
Qed.

(** C4. [cleanupPreloadCache] looks at the duration bound only when the
    cache holds more than [maxPreloadTracks] entries. Playing the context
    [T0, T1, T2] of 1000-second tracks, preloading, moving to [T1] and
    preloading again leaves two entries of 2000 seconds together; every
    cleanup pass, the one inside the preload included, keeps both. *)
Theorem cleanup_keeps_long_cache (random : nat -> Q) (now now' : nat -> Z)
    (stream : string) :
  let resolve := fun _ : option string => Some stream in
  let s0 :=
    playContext random
      (mkContextArg (Some Playlist) None (Some "Long"%string)
         [long_track "T0"; long_track "T1"; long_track "T2"] (Some 0) false)
      initial in
  let s1 := preloadUpcomingTracks resolve now s0 in
  let s2 := preloadUpcomingTracks resolve now' (playNext s1) in
  let s3 := cleanupPreloadCache s2 in
  (preloadCache s1).*1 = [Some "T1"%string] /\
  (preloadCache s2).*1 = [Some "T1"%string; Some "T2"%string] /\
  preloadCache s3 = preloadCache s2 /\
  length (preloadCache s3) = 2%nat /\
  total_duration (preloadCache s3) = 2000 /\
  maxPreloadDuration < total_duration (preloadCache s3).
Proof. cbv zeta. split_and!; vm_compute; reflexivity. Qed.

Lemma cleanup_bounds_witness :
  NoDup six_entries.*1 /\
  Z.of_nat (length (cleanup six_entries)) <= maxPreloadTracks /\
  total_duration (cleanup six_entries) <= maxPreloadDuration /\
  (cleanup six_entries).*1 = (take 4 six_entries).*1.
Proof.
  assert (Hnd : NoDup six_entries.*1) by (by apply (bool_decide_unpack _)).
  destruct (cleanup_bounds six_entries Hnd) as (Hn & Hd & _).
  split_and!; [done | done | by apply Hd | reflexivity].
Defined.

(** ** Further properties of the specification *)

(** X1. A run of [addToQueue(t, true)] calls leaves the tracks at the head
    of the temporary queue in the reverse of the call order. *)
Theorem addToQueue_play_next_order (ts : list Track) (s : Player) :
  Forall valid_track ts ->
  temporaryQueue (addAllToQueue true ts s) = reverse ts ++ temporaryQueue s.
Proof.
  unfold addAllToQueue. revert s.
  induction ts as [|t ts IH]; intros s Hall; [done|].
  apply Forall_cons in Hall as [Ht Hall]. cbn [foldl].
  rewrite (addToQueue_valid t true s Ht), IH by done.
  simpl. by rewrite reverse_cons, <- app_assoc.
Qed.

Lemma addToQueue_play_next_order_witness :
  temporaryQueue
    (addAllToQueue true [track_of "X"; track_of "Y"; track_of "Z"]
       (set_temporaryQueue [track_of "Q"] initial))
  = [track_of "Z"; track_of "Y"; track_of "X"; track_of "Q"].
Proof.
  apply (addToQueue_play_next_order
           [track_of "X"; track_of "Y"; track_of "Z"]
           (set_temporaryQueue [track_of "Q"] initial)).
  by repeat constructor.
Defined.

(** X2. A run of [addToQueue(t, false)] calls leaves the tracks at the tail
    of the temporary queue in call order. *)
Theorem addToQueue_append_order (ts : list Track) (s : Player) :
  Forall valid_track ts ->
  temporaryQueue (addAllToQueue false ts s) = temporaryQueue s ++ ts.
Proof.
  unfold addAllToQueue. revert s.
  induction ts as [|t ts IH]; intros s Hall; [by rewrite app_nil_r|].
  apply Forall_cons in Hall as [Ht Hall]. cbn [foldl].
  rewrite (addToQueue_valid t false s Ht), IH by done.
  simpl. by rewrite <- app_assoc.
Qed.

Lemma addToQueue_append_order_witness :
  temporaryQueue
    (addAllToQueue false [track_of "X"; track_of "Y"; track_of "Z"]
       (set_temporaryQueue [track_of "Q"] initial))
  = [track_of "Q"; track_of "X"; track_of "Y"; track_of "Z"].
Proof.
  apply (addToQueue_append_order
           [track_of "X"; track_of "Y"; track_of "Z"]
           (set_temporaryQueue [track_of "Q"] initial)).
  by repeat constructor.
Defined.

(** X3. [playTrack] and [playContext] both discard the temporary queue;
    [playTrack] leaves the single track as the whole context, at index 0,
    and plays it. *)
Theorem new_context_clears_temporaryQueue (random : nat -> Q)
    (t : Track) (c : ContextArg) (s : Player) :
  temporaryQueue (playTrack t s) = [] /\
  contextQueue (playTrack t s) = [Some t] /\
  contextQueueIndex (playTrack t s) = 0 /\
  currentTrack (playTrack t s) = Some t /\
  loaded (playTrack t s) = loaded s ++ [t] /\
  temporaryQueue (playContext random c s) = [].
Proof.
  split_and!; try done.
  unfold playContext. destruct (0 <? _); [|by destruct (arg_shuffle c)].
  rewrite loadAndPlayTrack_temporaryQueue. by destruct (arg_shuffle c).
Qed.

(** X4. When a track played on its own ends (context type [online]) and
    the temporary queue is empty, the engine stops: nothing is played and
    no index moves. *)
Theorem onTrackEnded_online_stops (s : Player) :
  ctx_type (playbackContext s) = Some Online ->
  temporaryQueue s = [] ->
  onTrackEnded s = set_isPlaying false s.
Proof. intros Ht Hq. unfold onTrackEnded. by rewrite Ht, Hq. Qed.

Lemma onTrackEnded_online_stops_witness :
  let s := onPlay (playTrack (track_of "A") initial) in
  isPlaying s = true /\
  onTrackEnded s = set_isPlaying false s /\
  contextQueueIndex (onTrackEnded s) = 0 /\
  loaded (onTrackEnded s) = [track_of "A"].
Proof.
  pose proof (onTrackEnded_online_stops
                (onPlay (playTrack (track_of "A") initial))
                eq_refl eq_refl) as H.
  split_and!; [done | exact H | by rewrite H | by rewrite H].
Defined.

(** X5. [playContext] with shuffle enabled and a start index inside the
    track list puts the start track at index 0, makes it the current
    track, and the context queue is a permutation of the track list. *)
Theorem playContext_shuffle_pins_start (random : nat -> Q) (c : ContextArg)
    (s : Player) :
  arg_shuffle c = true ->
  0 <= or_zero (arg_startIndex c) < Z.of_nat (length (arg_tracks c)) ->
  let s' := playContext random c s in
  contextQueueIndex s' = 0 /\
  js_at (contextQueue s') 0
    = js_get (arg_tracks c) (or_zero (arg_startIndex c)) /\
  currentTrack s' = js_get (arg_tracks c) (or_zero (arg_startIndex c)) /\
  is_Some (currentTrack s') /\
  contextQueue s' ≡ₚ Some <$> arg_tracks c.
Proof.
  intros Hc Hr. cbv zeta. unfold playContext. rewrite Hc.
  set (s2 := set_playbackContext _ _).
  destruct (enableShuffle_pinned_permutation random (arg_tracks c)
              (or_zero (arg_startIndex c)) s2 Hr) as (Hhead & Hsome & Hperm).
  destruct (enableShuffle_fields random (arg_tracks c)
              (or_zero (arg_startIndex c)) s2) as (_ & Hidx & _).
  set (s3 := enableShuffle _ _ _ _) in *.
  cbn [contextQueue contextQueueIndex set_queueIndex set_queue].
  assert (Hlen : (0 <? Z.of_nat (length (contextQueue s3))) = true).
  { apply Z.ltb_lt. rewrite Hperm, length_fmap. lia. }
  rewrite Hlen, loadAndPlayTrack_contextQueue,
    loadAndPlayTrack_contextQueueIndex, Hidx, Hhead.
  split_and!; try done.
  - by destruct (js_get _ _).
  - by destruct (js_get _ _).
Qed.

Lemma playContext_shuffle_pins_start_witness :
  let s' := playContext half (playlist_ABC 1 true) initial in
  currentTrack s' = Some (track_of "B") /\
  js_at (contextQueue s') 0 = Some (track_of "B") /\
  contextQueue s' ≡ₚ
    [Some (track_of "A"); Some (track_of "B"); Some (track_of "C")].
Proof.
  destruct (playContext_shuffle_pins_start half (playlist_ABC 1 true) initial
              eq_refl)
    as (_ & Hhead & Hcur & _ & Hperm); [simpl; lia|].
  by split_and!.
Defined.

(** ** The renderer's entry points *)

Lemma addToQueue_fields (t : Track) (b : bool) (s : Player) :
  let s' := (addToQueue (Some t) b s).2 in
  temporaryQueue s' =
    (if decide (valid_track t)
     then if b then t :: temporaryQueue s else temporaryQueue s ++ [t]
     else temporaryQueue s) /\
  contextQueue s' = contextQueue s /\
  contextQueueIndex s' = contextQueueIndex s /\
  currentTrack s' = currentTrack s /\
  loaded s' = loaded s.
Proof.
  cbv zeta. destruct (decide (valid_track t)) as [Hv|Hv].
  - rewrite (addToQueue_valid t b s Hv). by destruct b.
  - unfold valid_track in Hv. apply not_true_is_false in Hv.
    unfold addToQueue. by rewrite Hv.
Qed.

Lemma addToQueue_run (b : bool) (ts : list Track) (s : Player) :
  let s' := foldl (fun acc t => (addToQueue (Some t) b acc).2) s ts in
  temporaryQueue s' =
    (if b then reverse (filter valid_track ts) ++ temporaryQueue s
     else temporaryQueue s ++ filter valid_track ts) /\
  contextQueue s' = contextQueue s /\
  contextQueueIndex s' = contextQueueIndex s /\
  currentTrack s' = currentTrack s /\
  loaded s' = loaded s.
Proof.
  cbv zeta. revert s. induction ts as [|t ts IH]; intros s.
  - simpl. destruct b; by rewrite ?app_nil_r.
  - cbn [foldl].
    destruct (IH (addToQueue (Some t) b s).2) as (Hq & Hc & Hi & Ht & Hl).
    destruct (addToQueue_fields t b s) as (Hq' & Hc' & Hi' & Ht' & Hl').
    rewrite Hq, Hc, Hi, Ht, Hl, Hq', Hc', Hi', Ht', Hl'.
    split_and!; try done.
    rewrite (filter_cons valid_track).
    destruct (decide (valid_track t)), b; try done.
    + by rewrite reverse_cons, <- app_assoc.
    + by rewrite <- app_assoc.
Qed.

(** X7. [addPlaylistToQueue] keeps the order of the playlist either way:
    with [playNext] the tracks that have an id come first in the temporary
    queue, in playlist order, before what was queued; without it they
    follow what was queued, in playlist order. Tracks without an id are
    left out, a failed or empty query changes nothing, and the context
    queue, its index and the current track are never touched. *)
Theorem addPlaylistToQueue_order (data : option (list Track))
    (playNext : bool) (s : Player) :
  let s' := addPlaylistToQueue data playNext s in
  let added := filter valid_track (default [] data) in
  temporaryQueue s' =
    (if playNext then added ++ temporaryQueue s
     else temporaryQueue s ++ added) /\
  contextQueue s' = contextQueue s /\
  contextQueueIndex s' = contextQueueIndex s /\
  currentTrack s' = currentTrack s /\
  loaded s' = loaded s.
Proof.
  cbv zeta. unfold addPlaylistToQueue.
  destruct data as [trks|];
    [|simpl; destruct playNext; by rewrite ?app_nil_r].
  destruct trks as [|t trks];
    [simpl; destruct playNext; by rewrite ?app_nil_r|].
  cbn [default length Nat.ltb Nat.leb].
  destruct playNext.
  - destruct (addToQueue_run true (reverse (t :: trks)) s)
      as (Hq & Hrest).
    rewrite Hq. split; [|done].
    by rewrite (filter_reverse valid_track), reverse_involutive.
  - apply (addToQueue_run false (t :: trks) s).
Qed.

Lemma findIndex_not_found (id : option string) (l : list Track) :
  (forall t, t ∈ l -> youtube_id t <> id) -> findIndex id l = -1.
Proof.
  intros Hall. unfold findIndex.
  destruct (list_find _ l) as [[i t]|] eqn:E; [|done].
  apply list_find_Some in E as (Hl & Hp & _).
  destruct (Hall t); [by eapply list_elem_of_lookup_2 | done].
Qed.

Lemma js_get_fmap_Some (l : list Track) (i : Z) :
  js_at (Some <$> l) i = js_get l i.
Proof.
  unfold js_at, js_get. destruct (i <? 0); [done|].
  rewrite list_lookup_fmap. by destruct (l !! Z.to_nat i).
Qed.

Lemma js_get_in_range (l : list Track) (i : Z) :
  0 <= i < Z.of_nat (length l) ->
  exists t, js_get l i = Some t /\ l !! Z.to_nat i = Some t /\ t ∈ l.
Proof.
  intros Hi. unfold js_get. destruct (Z.ltb_spec i 0); [lia|].
  destruct (lookup_lt_is_Some_2 l (Z.to_nat i)) as [t Ht]; [lia|].
  exists t. split_and!; try done. by eapply list_elem_of_lookup_2.
Qed.

(** What an unshuffled [playContext] leaves behind. *)
Lemma playContext_plain (random : nat -> Q) (c : ContextArg) (s : Player) :
  arg_shuffle c = false ->
  let s' := playContext random c s in
  temporaryQueue s' = [] /\
  contextQueue s' = Some <$> arg_tracks c /\
  contextQueueIndex s' = or_zero (arg_startIndex c) /\
  tracks (playbackContext s') = arg_tracks c /\
  shuffle (playbackContext s') = false /\
  (arg_tracks c <> [] ->
     currentTrack s' = js_get (arg_tracks c) (or_zero (arg_startIndex c))).
Proof.
  intros Hc. cbv zeta. unfold playContext. rewrite Hc.
  cbn [contextQueue contextQueueIndex set_queueIndex set_queue
       set_contextQueueIndex set_contextQueue].
  rewrite length_fmap.
  destruct (arg_tracks c) as [|x l] eqn:E.
  - simpl. by split_and!.
  - cbn [length]. destruct (Z.ltb_spec 0 (Z.of_nat (S (length l)))); [|lia].
    rewrite loadAndPlayTrack_temporaryQueue, loadAndPlayTrack_contextQueue,
      loadAndPlayTrack_contextQueueIndex.
    rewrite js_get_fmap_Some.
    destruct (js_get (x :: l) (or_zero (arg_startIndex c))); by split_and!.
Qed.

(** What a shuffled [playContext] with its start index inside the track
    list leaves behind. *)
Lemma playContext_shuffled (random : nat -> Q) (c : ContextArg) (s : Player) :
  arg_shuffle c = true ->
  0 <= or_zero (arg_startIndex c) < Z.of_nat (length (arg_tracks c)) ->
  let s' := playContext random c s in
  temporaryQueue s' = [] /\
  contextQueueIndex s' = 0 /\
  shuffle (playbackContext s') = true /\
  currentTrack s' = js_get (arg_tracks c) (or_zero (arg_startIndex c)) /\
  js_at (contextQueue s') 0 = currentTrack s' /\
  contextQueue s' ≡ₚ Some <$> arg_tracks c.
Proof.
  intros Hc Hr. cbv zeta. unfold playContext. rewrite Hc.
  set (s2 := set_playbackContext _ _).
  destruct (enableShuffle_pinned_permutation random (arg_tracks c)
              (or_zero (arg_startIndex c)) s2 Hr) as (Hhead & _ & Hperm).
  destruct (enableShuffle_fields random (arg_tracks c)
              (or_zero (arg_startIndex c)) s2)
    as (_ & Hidx & _ & Hsh & _ & _ & Htq & _).
  set (s3 := enableShuffle _ _ _ _) in *.
  cbn [contextQueue contextQueueIndex set_queueIndex set_queue].
  assert (Hlen : (0 <? Z.of_nat (length (contextQueue s3))) = true).
  { apply Z.ltb_lt. rewrite Hperm, length_fmap. lia. }
  rewrite Hlen, loadAndPlayTrack_contextQueue,
    loadAndPlayTrack_contextQueueIndex, loadAndPlayTrack_temporaryQueue,
    Hidx, Hhead.
  split_and!; try done.
  - by destruct (js_get _ _).
  - by destruct (js_get _ _).
  - by destruct (js_get _ _).
Qed.

(** X8. A click on a track row ([playTrackInContext]) always leaves an
    empty temporary queue, a current track and a context index inside the
    context queue. The track played has the id of the clicked track
    whenever that id is among the rows of the view (or there is no view to
    take a context from); when it is not, the first row is played
    instead. *)
Theorem playTrackInContext_plays (random : nat -> Q) (track : Track)
    (context : option ViewContext) (view : option (list Track))
    (s : Player) :
  let s' := playTrackInContext random track context view s in
  index_invariant s' /\
  temporaryQueue s' = [] /\
  (exists t, currentTrack s' = Some t /\
             js_at (contextQueue s') (contextQueueIndex s') = Some t) /\
  ((forall ctx all, context = Some ctx -> view = Some all -> all <> [] ->
      exists t, t ∈ all /\ youtube_id t = youtube_id track) ->
   exists t, currentTrack s' = Some t /\ youtube_id t = youtube_id track) /\
  (forall ctx x rest, context = Some ctx -> view = Some (x :: rest) ->
      (forall t, t ∈ x :: rest -> youtube_id t <> youtube_id track) ->
      currentTrack s' = Some x /\ contextQueueIndex s' = 0).
Proof.
  cbv zeta.
  assert (Hsingle :
    let s' := playTrack track s in
    index_invariant s' /\ temporaryQueue s' = [] /\
    (exists t, currentTrack s' = Some t /\
               js_at (contextQueue s') (contextQueueIndex s') = Some t) /\
    exists t, currentTrack s' = Some t /\ youtube_id t = youtube_id track).
  { cbv zeta. split; [apply index_invariant_intro; simpl; lia|].
    split; [done|]. split; by exists track. }
  destruct Hsingle as (H1 & H2 & H3 & H4).
  unfold playTrackInContext.
  destruct context as [ctx|]; [|by split_and!].
  destruct view as [all|]; [|by split_and!].
  destruct all as [|x rest]; [by split_and!|].
  cbn [length Nat.eqb].
  set (start := if 0 <=? findIndex (youtube_id track) (x :: rest)
                then findIndex (youtube_id track) (x :: rest) else 0).
  set (c := mkContextArg _ _ _ _ _ _).
  assert (Hstart : 0 <= start < Z.of_nat (length (x :: rest))).
  { subst start. pose proof (findIndex_range (youtube_id track) (x :: rest)).
    destruct (0 <=? _) eqn:E; [apply Z.leb_le in E|]; simpl in *; lia. }
  destruct (playContext_plain random c s eq_refl)
    as (Htq & Hcq & Hidx & _ & _ & Hcur).
  specialize (Hcur ltac:(done)).
  change (arg_tracks c) with (x :: rest) in *.
  change (or_zero (arg_startIndex c)) with start in *.
  destruct (js_get_in_range (x :: rest) start Hstart) as (t & Ht & Hl & Hin).
  split_and!.
  - apply index_invariant_intro. rewrite Hcq, Hidx, length_fmap. done.
  - done.
  - exists t. rewrite Hcur, Hcq, Hidx, js_get_fmap_Some. done.
  - intros Hfound.
    destruct (Hfound ctx (x :: rest) eq_refl eq_refl ltac:(done))
      as (u & Hu & Hid).
    destruct (findIndex_found (youtube_id track) (x :: rest) u Hu Hid)
      as (i & t' & Hfi & Hl' & Hid' & _).
    exists t'. split; [|done]. rewrite Hcur. subst start. rewrite Hfi.
    destruct (Z.leb_spec 0 (Z.of_nat i)); [|lia].
    unfold js_get. destruct (Z.ltb_spec (Z.of_nat i) 0); [lia|].
    by rewrite Nat2Z.id.
  - intros ctx' x' rest' [= <-] [= <- <-] Hnone.
    rewrite Hcur, Hidx. subst start.
    by rewrite (findIndex_not_found _ _ Hnone).
Qed.

(** ** Products of doubles

    The doubles of [0.7], of a third, of the largest number below 1 and of
    the subnormal [1e-320], and two products: [0.7 * 10] is the double 7,
    where the exact product of the double [0.7] and 10 is below 7. *)
Lemma double_of_Q_samples :
  double_of_Q (7 # 10) = S754_finite false 6305039478318694 (-53) /\
  double_of_Q (1 # 3) = S754_finite false 6004799503160661 (-54) /\
  double_of_Q (9007199254740991 # 9007199254740992)
    = S754_finite false 9007199254740991 (-53) /\
  double_of_Q (1 # 10 ^ 320) = S754_finite false 2024 (-1074) /\
  double_mul (double_of_Q (7 # 10)) (double_of_Z 10) = double_of_Z 7 /\
  floor_of_product (7 # 10) 10 = 7 /\
  floor_of_product (1 # 3) 7 = 2.
Proof. split_and!; vm_compute; reflexivity. Qed.

(** The number of binary digits of a mantissa brackets it between two
    powers of two. *)
Lemma digits2_pos_bounds (p : positive) :
  2 ^ (Zpos (digits2_pos p) - 1) <= Zpos p < 2 ^ Zpos (digits2_pos p).
Proof.
  induction p as [p IH|p IH|]; simpl digits2_pos.
  - rewrite Pos2Z.inj_succ.
    replace (Z.succ (Z.pos (digits2_pos p)) - 1)
      with (Z.succ (Z.pos (digits2_pos p) - 1)) by lia.
    rewrite !Z.pow_succ_r by lia. lia.
  - rewrite Pos2Z.inj_succ.
    replace (Z.succ (Z.pos (digits2_pos p)) - 1)
      with (Z.succ (Z.pos (digits2_pos p) - 1)) by lia.
    rewrite !Z.pow_succ_r by lia. lia.
  - simpl. lia.
Qed.

(** The iteration over a binary positive, unfolded. *)
Lemma iter_pos_nat {A} (f : A -> A) (p : positive) (x : A) :
  SpecFloat.iter_pos f p x = Nat.iter (Pos.to_nat p) f x.
Proof.
  revert x. induction p as [p IH|p IH|]; intros x; simpl SpecFloat.iter_pos.
  - rewrite !IH. rewrite Pos2Nat.inj_xI.
    replace (S (2 * Pos.to_nat p))%nat
      with (Pos.to_nat p + S (Pos.to_nat p))%nat by lia.
    rewrite Nat.iter_add. f_equal. by rewrite Nat.iter_succ_r.
  - rewrite !IH. rewrite Pos2Nat.inj_xO.
    replace (2 * Pos.to_nat p)%nat
      with (Pos.to_nat p + Pos.to_nat p)%nat by lia.
    by rewrite Nat.iter_add.
  - reflexivity.
Qed.

(** One right shift halves the mantissa and keeps the bit shifted out
    as the rounding bit. *)
Lemma shr_1_m (st : shr_record) :
  0 <= shr_m st -> shr_m (shr_1 st) = shr_m st / 2.
Proof.
  destruct st as [m r s]. unfold shr_m at 1. intros Hm.
  destruct m as [|[p|p|]|p]; unfold shr_1, shr_m;
    first [reflexivity | lia
          | apply Z.div_unique with 1; lia
          | apply Z.div_unique with 0; lia].
Qed.

Lemma shr_1_r (st : shr_record) :
  0 <= shr_m st -> shr_r (shr_1 st) = Z.odd (shr_m st).
Proof.
  destruct st as [m r s]. simpl. intros Hm.
  by destruct m as [|[p|p|]|p].
Qed.

(** After [k] right shifts the mantissa is the quotient by [2 ^ k]; the
    rounding bit is set only when the part shifted out is at least half
    a unit. *)
Lemma shr_iter (M : Z) (k : nat) :
  0 <= M ->
  let st := Nat.iter k shr_1 (Build_shr_record M false false) in
  shr_m st = M / 2 ^ Z.of_nat k /\
  (shr_r st = true -> 2 ^ Z.of_nat k <= 2 * (M mod 2 ^ Z.of_nat k)).
Proof.
  intros HM. induction k as [|k IH].
  - simpl. split; [by rewrite Z.div_1_r|done].
  - cbv zeta in *. destruct IH as [IHm _].
    rewrite Nat.iter_succ.
    set (st := Nat.iter k shr_1 _) in *.
    assert (0 <= shr_m st) as Hst.
    { rewrite IHm. apply Z.div_pos; [done|]. apply Z.pow_pos_nonneg; lia. }
    rewrite shr_1_m, shr_1_r by done. rewrite IHm.
    rewrite Nat2Z.inj_succ, Z.pow_succ_r by lia.
    assert (0 < 2 ^ Z.of_nat k) as Hpow by (apply Z.pow_pos_nonneg; lia).
    split.
    + rewrite (Z.mul_comm 2). by rewrite Z.div_div by lia.
    + intros Hodd.
      rewrite (Z.mul_comm 2 (2 ^ Z.of_nat k)).
      rewrite Z.rem_mul_r by lia.
      rewrite Zmod_odd, Hodd.
      pose proof (Z.mod_pos_bound M (2 ^ Z.of_nat k) Hpow). lia.
Qed.

Lemma shr_pos (M : Z) (p : positive) (E : Z) :
  0 <= M ->
  exists st,
    shr (Build_shr_record M false false) E (Zpos p) = (st, E + Zpos p) /\
    shr_m st = M / 2 ^ Zpos p /\
    (shr_r st = true -> 2 ^ Zpos p <= 2 * (M mod 2 ^ Zpos p)).
Proof.
  intros HM. eexists. split; [reflexivity|].
  rewrite iter_pos_nat.
  pose proof (shr_iter M (Pos.to_nat p) HM) as H. cbv zeta in H.
  by rewrite positive_nat_Z in H.
Qed.

(** Rounding to nearest keeps the mantissa or adds one, and adds one
    only when the rounding bit is set. *)
Lemma round_nearest_even_cases (st : shr_record) :
  let m := round_nearest_even (shr_m st) (loc_of_shr_record st) in
  m = shr_m st \/ (m = shr_m st + 1 /\ shr_r st = true).
Proof.
  destruct st as [m [] []]; simpl; try (by left).
  - by right.
  - destruct (Z.even m); [by left|by right].
Qed.

(** The shift that brings a mantissa to 53 bits, with the exponent kept
    at or above that of the subnormal numbers. *)
Lemma shr_fexp_eq (m e : Z) :
  shr_fexp prec emax m e loc_Exact =
  shr (Build_shr_record m false false) e
    (Z.max (Zdigits2 m + e - 53) (-1074) - e).
Proof. reflexivity. Qed.

Lemma shiftl_nonpos (a e : Z) : e <= 0 -> Z.shiftl a e = a / 2 ^ (- e).
Proof.
  intros He. rewrite <- Z.shiftr_opp_r. apply Z.shiftr_div_pow2. lia.
Qed.

(** The second normalisation of [binary_round_aux], after the mantissa
    was rounded: the result is finite and its floor stays below any [n]
    the rounded value is below. *)
Lemma round_second_stage (m2 q n : Z) :
  0 <= m2 <= 2 ^ 53 -> -1074 <= q <= 0 -> 0 < n -> m2 < n * 2 ^ (- q) ->
  let x :=
    let '(mrs, e) := shr_fexp prec emax m2 q loc_Exact in
    match shr_m mrs with
    | Z0 => S754_zero false
    | Zpos m =>
        if e <=? emax - prec then S754_finite false m e
        else S754_infinity false
    | Zneg _ => S754_nan
    end in
  double_finite x = true /\ 0 <= Math_floor x < n.
Proof.
  intros Hm2 Hq Hn Hlt. rewrite shr_fexp_eq.
  assert (0 < 2 ^ (- q)) as HB by (apply Z.pow_pos_nonneg; lia).
  destruct m2 as [|mp|mp]; [| |lia].
  - simpl Zdigits2.
    destruct (Z.max (0 + q - 53) (-1074) - q) as [|pp|pp] eqn:Hs;
      [| lia |]; simpl; (split; [done|lia]).
  - simpl Zdigits2.
    pose proof (digits2_pos_bounds mp) as HD.
    set (D := Z.pos (digits2_pos mp)) in *.
    assert (D <= 54) as HD54.
    { destruct (Z.le_gt_cases D 54) as [|Hgt]; [done|exfalso].
      assert (2 ^ 54 <= 2 ^ (D - 1)) by (apply Z.pow_le_mono_r; lia).
      change (2 ^ 54) with 18014398509481984 in *.
      change (2 ^ 53) with 9007199254740992 in *. lia. }
    assert (forall m e, e <= 0 -> Z.pos m < n * 2 ^ (- e) ->
              double_finite (S754_finite false m e) = true /\
              0 <= Math_floor (S754_finite false m e) < n) as Hfin.
    { intros m e He Hme. split; [done|]. simpl.
      rewrite shiftl_nonpos by done.
      assert (0 < 2 ^ (- e)) by (apply Z.pow_pos_nonneg; lia).
      split; [apply Z.div_pos; lia|].
      apply Z.div_lt_upper_bound; lia. }
    destruct (Z.max (D + q - 53) (-1074) - q) as [|pp|pp] eqn:Hs.
    + unfold shr, shr_m.
      destruct (Z.leb_spec q (emax - prec)) as [_|Hbad];
        [|unfold emax, prec in Hbad; lia].
      apply Hfin; lia.
    + assert (pp = 1%positive) as -> by lia.
      destruct (shr_pos (Z.pos mp) 1 q ltac:(lia)) as (st & -> & Hst & _).
      change (2 ^ 1) with 2 in Hst.
      destruct (Z.leb_spec (q + 1) (emax - prec)) as [_|Hbad];
        [|unfold emax, prec in Hbad; lia].
      assert (0 <= shr_m st) by (rewrite Hst; apply Z.div_pos; lia).
      destruct (shr_m st) as [|m3|m3] eqn:Hm3; [split; [done|simpl; lia]| |lia].
      destruct (Z.eq_dec q 0) as [->|Hq0].
      * split; [done|]. simpl Math_floor. rewrite Z.shiftl_mul_pow2 by lia.
        change (2 ^ (0 + 1)) with 2. change (2 ^ (- 0)) with 1 in Hlt.
        pose proof (Z.mul_div_le (Z.pos mp) 2 ltac:(lia)). lia.
      * apply Hfin; [lia|].
        replace (- q) with (Z.succ (- (q + 1))) in Hlt by lia.
        rewrite Z.pow_succ_r in Hlt by lia.
        assert (0 < 2 ^ (- (q + 1))) by (apply Z.pow_pos_nonneg; lia).
        pose proof (Z.mul_div_le (Z.pos mp) 2 ltac:(lia)). nia.
    + unfold shr, shr_m.
      destruct (Z.leb_spec q (emax - prec)) as [_|Hbad];
        [|unfold emax, prec in Hbad; lia].
      apply Hfin; lia.
Qed.

(** Rounding a product that is at most [n * (1 - 2 ^ -53)]: the result
    is finite and below [n]. Rounding up to [n] would need the product
    within half a unit of [n], and half a unit of a number below [n] is at
    most [n * 2 ^ -54]. *)
Lemma round_product_range (M : positive) (E n : Z) :
  0 < n < 2 ^ 53 ->
  E <= 0 ->
  Z.pos M * 2 ^ 53 <= n * 2 ^ (- E) * (2 ^ 53 - 1) ->
  let x := binary_round_aux prec emax false (Z.pos M) E loc_Exact in
  double_finite x = true /\ 0 <= Math_floor x < n.
Proof.
  intros Hn HE HM. unfold binary_round_aux. rewrite shr_fexp_eq.
  simpl Zdigits2.
  pose proof (digits2_pos_bounds M) as HD.
  set (D := Z.pos (digits2_pos M)) in *.
  assert (0 < 2 ^ (- E)) as HX by (apply Z.pow_pos_nonneg; lia).
  assert (Z.pos M < n * 2 ^ (- E)) as HMlt.
  { change (2 ^ 53) with 9007199254740992 in *. nia. }
  assert (D + E <= 53) as HDE.
  { destruct (Z.le_gt_cases (D + E) 53) as [|Hgt]; [done|exfalso].
    assert (2 ^ (53 - E) <= 2 ^ (D - 1)) by (apply Z.pow_le_mono_r; lia).
    replace (53 - E) with (53 + - E) in * by lia.
    rewrite Z.pow_add_r in * by lia. nia. }
  set (q := Z.max (D + E - 53) (-1074)).
  destruct (q - E) as [|pp|pp] eqn:Hp.
  - unfold shr. cbn [shr_m loc_of_shr_record round_nearest_even].
    apply round_second_stage; [|lia|lia|done].
    split; [lia|].
    assert (2 ^ D <= 2 ^ 53) by (apply Z.pow_le_mono_r; lia). lia.
  - destruct (shr_pos (Z.pos M) pp E ltac:(lia)) as (st & -> & Hm1 & Hr).
    assert (E + Z.pos pp = q) as -> by lia.
    assert (0 < 2 ^ Z.pos pp) as HA by (apply Z.pow_pos_nonneg; lia).
    assert (0 < 2 ^ (- q)) as HB by (apply Z.pow_pos_nonneg; lia).
    assert (2 ^ (- E) = 2 ^ Z.pos pp * 2 ^ (- q)) as HAB.
    { rewrite <- Z.pow_add_r by lia. f_equal. lia. }
    pose proof (Z.div_mod (Z.pos M) (2 ^ Z.pos pp) ltac:(lia)) as Hdm.
    pose proof (Z.mod_pos_bound (Z.pos M) (2 ^ Z.pos pp) HA) as Hrho.
    rewrite <- Hm1 in Hdm.
    set (A := 2 ^ Z.pos pp) in *. set (B := 2 ^ (- q)) in *.
    set (rho := Z.pos M mod A) in *. set (m1 := shr_m st) in *.
    assert (0 <= m1) as Hm1pos by (subst m1; rewrite Hm1; apply Z.div_pos; lia).
    assert (m1 < 2 ^ 53) as Hm1lt.
    { assert (2 ^ D <= 2 ^ (53 + Z.pos pp)) by (apply Z.pow_le_mono_r; lia).
      rewrite Z.pow_add_r in * by lia. fold A in H. nia. }
    assert (Z.pos M < A * (n * B)) as HMW by (rewrite HAB in HMlt; lia).
    assert (m1 < n * B) as Hm1N by nia.
    assert (shr_r st = true -> m1 + 1 < n * B) as Hup.
    { intros Hrt. specialize (Hr Hrt). fold rho in Hr.
      destruct (Z.max_spec (D + E - 53) (-1074)) as [[Hc Hq]|[Hc Hq]];
        fold q in Hq.
      - assert (2 ^ 53 < 2 ^ 1074) by (apply Z.pow_lt_mono_r; lia).
        assert (B = 2 ^ 1074) as HB' by (subst B; by rewrite Hq).
        nia.
      - assert (2 ^ (D - 1) = 2 ^ 52 * A) as HDA.
        { subst A. rewrite <- Z.pow_add_r by lia. f_equal. lia. }
        rewrite HDA in HD.
        rewrite HAB in HM.
        change (2 ^ 53) with 9007199254740992 in *.
        change (2 ^ 52) with 4503599627370496 in *.
        assert (4503599627370496 <= m1) as Hnormal by nia.
        destruct (Z.lt_ge_cases (m1 + 1) (n * B)) as [|Hge]; [done|exfalso].
        set (Y := n * B) in *. set (W := A * Y) in *.
        assert (Z.pos M * 9007199254740992 <= W * 9007199254740991) as HM'.
        { subst W Y. lia. }
        assert (A * m1 >= W - A) as Hlow by (subst W; nia).
        assert (2 * W <= 9007199254740992 * A) as H2W by lia.
        assert (2 * Y <= 9007199254740992) as H2Y by (subst W; nia).
        lia. }
    set (m2 := round_nearest_even _ _).
    assert (m2 = m1 \/ (m2 = m1 + 1 /\ shr_r st = true)) as Hm2
      by apply round_nearest_even_cases.
    apply round_second_stage; [|lia|lia|].
    + destruct Hm2 as [->|[-> _]]; lia.
    + destruct Hm2 as [->|[-> Hrt]]; [done|by apply Hup].
  - unfold shr. cbn [shr_m loc_of_shr_record round_nearest_even].
    apply round_second_stage; [|lia|lia|done].
    split; [lia|].
    assert (2 ^ D <= 2 ^ 53) by (apply Z.pow_le_mono_r; lia). lia.
Qed.

(** Shifting a mantissa left. *)
Lemma iter_xO_digits (m d : positive) :
  digits2_pos (Pos.iter xO m d) = (digits2_pos m + d)%positive.
Proof.
  induction d as [|d IH] using Pos.peano_ind.
  - simpl. lia.
  - rewrite Pos.iter_succ. simpl. rewrite IH. lia.
Qed.

Lemma iter_xO_value (m d : positive) :
  Z.pos (Pos.iter xO m d) = Z.pos m * 2 ^ Z.pos d.
Proof.
  induction d as [|d IH] using Pos.peano_ind.
  - simpl. lia.
  - rewrite Pos.iter_succ, Pos2Z.inj_xO, IH, Pos2Z.inj_succ.
    rewrite Z.pow_succ_r by lia. lia.
Qed.

(** A mantissa of 53 bits is not rounded. *)
Lemma binary_round_aux_canonical (s : bool) (m : positive) (e : Z) :
  Z.pos (digits2_pos m) = 53 -> -1074 <= e <= 971 ->
  binary_round_aux prec emax s (Z.pos m) e loc_Exact = S754_finite s m e.
Proof.
  intros HD He. unfold binary_round_aux. rewrite shr_fexp_eq.
  simpl Zdigits2. rewrite HD.
  assert (Z.max (53 + e - 53) (-1074) - e = 0) as Hs by lia.
  rewrite Hs. unfold shr.
  cbn [shr_m loc_of_shr_record round_nearest_even].
  rewrite shr_fexp_eq. simpl Zdigits2. rewrite HD, Hs. unfold shr, shr_m.
  destruct (Z.leb_spec e (emax - prec)) as [_|Hbad];
    [done|unfold emax, prec in Hbad; lia].
Qed.

(** An integer below [2 ^ 53] is a double. *)
Lemma double_of_Z_pos (n : Z) :
  0 < n < 2 ^ 53 ->
  exists mn en,
    double_of_Z n = S754_finite false mn en /\
    en <= 0 /\ Z.pos mn = n * 2 ^ (- en).
Proof.
  intros Hn. destruct n as [|np|np]; [lia| |lia].
  unfold double_of_Z, binary_normalize, binary_round.
  pose proof (digits2_pos_bounds np) as HD.
  set (D := Z.pos (digits2_pos np)) in *.
  assert (D <= 53) as HD53.
  { destruct (Z.le_gt_cases D 53) as [|Hgt]; [done|exfalso].
    assert (2 ^ 53 <= 2 ^ (D - 1)) by (apply Z.pow_le_mono_r; lia). lia. }
  assert (fexp prec emax (D + 0) = D - 53) as ->.
  { unfold fexp, SpecFloat.emin, prec, emax. lia. }
  unfold shl_align.
  destruct (D - 53 - 0) as [|d|d] eqn:Hd; [|lia|].
  - exists np, 0. split; [|split; [done|simpl; lia]].
    apply binary_round_aux_canonical; [fold D|]; lia.
  - exists (Pos.iter xO np d), (D - 53). split; [|split; [lia|]].
    + apply binary_round_aux_canonical; [|lia].
      rewrite iter_xO_digits, Pos2Z.inj_add. fold D. lia.
    + rewrite iter_xO_value. do 2 f_equal. lia.
Qed.

Lemma double_one : double_of_Z 1 = S754_finite false 4503599627370496 (-52).
Proof. vm_compute. reflexivity. Qed.

(** The order of two positive finite doubles. *)
Lemma SFltb_finite (m : positive) (e : Z) (m1 : positive) (e1 : Z) :
  SFltb (S754_finite false m e) (S754_finite false m1 e1) = true ->
  e < e1 \/ (e = e1 /\ Z.pos m < Z.pos m1).
Proof.
  unfold SFltb, SFcompare. intros Hlt.
  destruct (Z.compare_spec e e1) as [He|He|He];
    [right|by left|discriminate Hlt].
  split; [done|].
  rewrite Pos.compare_cont_spec in Hlt. unfold Pos.switch_Eq in Hlt.
  destruct (Pos.compare_spec m m1) as [Hcmp|Hcmp|Hcmp];
    try discriminate Hlt.
  lia.
Qed.

(** A double in [0, 1) is at most [1 - 2 ^ -53]. *)
Lemma unit_double_finite (s : bool) (m : positive) (e : Z) :
  unit_double (S754_finite s m e) = true ->
  s = false /\ e <= -53 /\ Z.pos m < 2 ^ 53.
Proof.
  unfold unit_double. rewrite double_one. rewrite !andb_true_iff.
  intros [[Hv Hle] Hlt].
  destruct s; [discriminate Hle|]. split; [reflexivity|].
  unfold valid_binary, bounded, canonical_mantissa in Hv.
  apply andb_true_iff in Hv as [Hc _]. apply Z.eqb_eq in Hc.
  unfold fexp, SpecFloat.emin, prec, emax in Hc.
  pose proof (digits2_pos_bounds m) as HD.
  set (D := Z.pos (digits2_pos m)) in *.
  apply SFltb_finite in Hlt.
  assert (D <= 53) as HD53 by lia.
  assert (2 ^ D <= 2 ^ 53) as HDpow by (apply Z.pow_le_mono_r; lia).
  split; [|lia].
  destruct Hlt as [Hlt|[He Hlt]]; [lia|exfalso].
  assert (D = 53) as HD' by lia.
  assert (2 ^ 52 <= Z.pos m) as Hlow.
  { rewrite HD' in HD. apply HD. }
  change (2 ^ 52) with 4503599627370496 in Hlow. lia.
Qed.

(** [Math.floor(d * n)] for a double [d] of [0, 1) and a length [n] is
    an index below [n]. *)
Lemma floor_mul_range (d : double) (n : Z) :
  unit_double d = true -> 0 < n < 2 ^ 53 ->
  double_finite (double_mul d (double_of_Z n)) = true /\
  0 <= Math_floor (double_mul d (double_of_Z n)) < n.
Proof.
  intros Hd Hn.
  destruct (double_of_Z_pos n Hn) as (mn & en & -> & Hen & Hmn).
  destruct d as [s|s| |s m e].
  - cbn. split; [reflexivity|lia].
  - unfold unit_double in Hd. rewrite double_one in Hd.
    destruct s; discriminate Hd.
  - discriminate Hd.
  - apply unit_double_finite in Hd as (-> & He & Hm).
    unfold double_mul, SFmul. cbn [xorb].
    apply round_product_range; [done|lia|].
    rewrite Pos2Z.inj_mul, Hmn. replace (- (e + en)) with (- e + - en) by lia.
    rewrite Z.pow_add_r by lia.
    assert (2 ^ 53 <= 2 ^ (- e)) by (apply Z.pow_le_mono_r; lia).
    assert (0 < 2 ^ (- en)) by (apply Z.pow_pos_nonneg; lia).
    change (2 ^ 53) with 9007199254740992 in *.
    set (A := 2 ^ (- e)) in *. set (B := 2 ^ (- en)) in *.
    assert (Z.pos m * 9007199254740992 <= A * 9007199254740991) by nia.
    assert (0 < n * B) by nia.
    transitivity (A * 9007199254740991 * (n * B)); [nia|lia].
Qed.

(** X9. The swap partner the Fisher-Yates loop draws at position [i],
    [Math.floor(Math.random() * (i + 1))], is never beyond [i]: for a draw
    that is a double of [0, 1) the product, rounded as a product of
    doubles is, is finite and its floor is at most [i], so every swap is
    between two existing positions. *)
Theorem random_index_bound (r : Q) (i : nat) :
  unit_double (double_of_Q r) = true ->
  Z.of_nat i + 1 < 2 ^ 53 ->
  double_finite
    (double_mul (double_of_Q r) (double_of_Z (Z.of_nat i + 1))) = true /\
  (random_index r i <= i)%nat.
Proof.
  intros Hr Hi.
  destruct (floor_mul_range (double_of_Q r) (Z.of_nat i + 1) Hr ltac:(lia))
    as [Hfin Hrange].
  split; [exact Hfin|]. unfold random_index, floor_of_product. lia.
Qed.

Lemma random_index_bound_witness :
  (random_index (7 # 10) 9 <= 9)%nat /\
  random_index (7 # 10) 9 = 7%nat /\
  random_index (9007199254740991 # 9007199254740992) 2 = 2%nat /\
  random_index (half 0%nat) 4 = 2%nat.
Proof.
  split; [|split_and!; vm_compute; reflexivity].
  apply (random_index_bound (7 # 10) 9); vm_compute; reflexivity.
Defined.

(** X10. [shufflePlay] does nothing for a view without tracks. Otherwise,
    for a draw that is a double of [0, 1), it starts a shuffled context on
    a track of the view: that track is the current track and stands at
    index 0, the context queue is a permutation of the view's tracks, and
    the temporary queue is empty. *)
Theorem shufflePlay_starts_inside (random : nat -> Q) (r : Q)
    (viewType : ContextType) (contextId contextName : option string)
    (trks : list Track) (s : Player) :
  unit_double (double_of_Q r) = true ->
  Z.of_nat (length trks) < 2 ^ 53 ->
  let s' := shufflePlay random r viewType contextId contextName trks s in
  (trks = [] -> s' = s) /\
  (trks <> [] ->
     (exists t, t ∈ trks /\ currentTrack s' = Some t /\
                js_at (contextQueue s') 0 = Some t) /\
     contextQueueIndex s' = 0 /\
     index_invariant s' /\
     temporaryQueue s' = [] /\
     shuffle (playbackContext s') = true /\
     contextQueue s' ≡ₚ Some <$> trks).
Proof.
  intros Hunit Hlen. cbv zeta. unfold shufflePlay. split.
  - by intros ->.
  - intros Hne. destruct trks as [|x l]; [done|]. cbn [length Nat.eqb].
    set (c := mkContextArg _ _ _ _ _ _).
    destruct (floor_mul_range (double_of_Q r) (Z.of_nat (S (length l)))
                Hunit ltac:(simpl length in Hlen; lia)) as [_ Hr].
    fold (floor_of_product r (Z.of_nat (S (length l)))) in Hr.
    destruct (playContext_shuffled random c s eq_refl Hr)
      as (Htq & Hidx & Hsh & Hcur & Hhead & Hperm).
    destruct (js_get_in_range (x :: l) _ Hr) as (t & Ht & _ & Hin).
    change (arg_tracks c) with (x :: l) in *.
    change (or_zero (arg_startIndex c))
      with (floor_of_product r (Z.of_nat (S (length l)))) in *.
    split_and!; try done.
    + exists t. rewrite Hhead, Hcur. done.
    + apply index_invariant_intro. rewrite Hidx, Hperm, length_fmap.
      simpl. lia.
Qed.

Lemma shufflePlay_starts_inside_witness :
  let s' :=
    shufflePlay half (1 # 2) Liked None (Some "Liked Songs"%string)
      [track_of "A"; track_of "B"; track_of "C"; track_of "D"] initial in
  currentTrack s' = Some (track_of "C") /\
  js_at (contextQueue s') 0 = Some (track_of "C") /\
  contextQueue s' ≡ₚ
    Some <$> [track_of "A"; track_of "B"; track_of "C"; track_of "D"].
Proof.
  destruct (shufflePlay_starts_inside half (1 # 2) Liked None
              (Some "Liked Songs"%string)
              [track_of "A"; track_of "B"; track_of "C"; track_of "D"]
              initial)
    as (_ & H); [vm_compute; reflexivity | vm_compute; reflexivity |].
  destruct (H ltac:(done)) as (_ & _ & _ & _ & _ & Hperm).
  split_and!; [vm_compute; reflexivity | vm_compute; reflexivity
              | exact Hperm].
Defined.

(** ** Playing the queues out *)

(** The tracks still to come: the temporary queue, then the context queue
    after its index (slots without a track are passed over). *)
Lemma playNext_temporary (s : Player) (t : Track) (rest : list Track) :
  temporaryQueue s = t :: rest ->
  temporaryQueue (playNext s) = rest /\
  contextQueue (playNext s) = contextQueue s /\
  contextQueueIndex (playNext s) = contextQueueIndex s /\
  loaded (playNext s) = loaded s ++ [t].
Proof. intros Ht. unfold playNext. by rewrite Ht. Qed.

Lemma playNext_context (s : Player) :
  temporaryQueue s = [] ->
  contextQueueIndex s < Z.of_nat (length (contextQueue s)) - 1 ->
  temporaryQueue (playNext s) = [] /\
  contextQueue (playNext s) = contextQueue s /\
  contextQueueIndex (playNext s) = contextQueueIndex s + 1 /\
  loaded (playNext s) =
    loaded s ++ option_list (js_at (contextQueue s) (contextQueueIndex s + 1)).
Proof.
  intros Ht Hlt. unfold playNext. rewrite Ht.
  destruct (Z.ltb_spec (contextQueueIndex s)
              (Z.of_nat (length (contextQueue s)) - 1)); [|lia].
  simpl. destruct (js_at _ _); simpl; split_and!; try done.
  by rewrite app_nil_r.
Qed.

Lemma playNext_exhausted (s : Player) :
  temporaryQueue s = [] ->
  Z.of_nat (length (contextQueue s)) - 1 <= contextQueueIndex s ->
  playNext s = s.
Proof.
  intros Ht Hge. unfold playNext. rewrite Ht.
  by destruct (Z.ltb_spec (contextQueueIndex s)
                 (Z.of_nat (length (contextQueue s)) - 1)); [lia|].
Qed.

Lemma playNext_times_context (k : nat) :
  forall s : Player,
    temporaryQueue s = [] ->
    -1 <= contextQueueIndex s ->
    length (drop (Z.to_nat (contextQueueIndex s + 1)) (contextQueue s)) = k ->
    let s' := playNext_times k s in
    temporaryQueue s' = [] /\
    contextQueue s' = contextQueue s /\
    contextQueueIndex s' = contextQueueIndex s + Z.of_nat k /\
    loaded s' =
      loaded s ++
      omap id (drop (Z.to_nat (contextQueueIndex s + 1)) (contextQueue s)).
Proof.
  induction k as [|k IH]; intros s Ht Hlo Hk; cbv zeta.
  - apply nil_length_inv in Hk. rewrite Hk. simpl.
    rewrite app_nil_r. split_and!; try done. lia.
  - rewrite length_drop in Hk.
    destruct (playNext_context s Ht ltac:(lia)) as (Ht' & Hc' & Hi' & Hl').
    cbn [playNext_times].
    destruct (IH (playNext s) Ht') as (Ht2 & Hc2 & Hi2 & Hl2).
    + lia.
    + rewrite Hc', Hi', length_drop. lia.
    + rewrite Ht2, Hc2, Hi2, Hl2, Hc', Hi', Hl'.
      split_and!; try done; [lia|].
      destruct (lookup_lt_is_Some_2 (contextQueue s)
                  (Z.to_nat (contextQueueIndex s + 1))) as [o Ho]; [lia|].
      rewrite (drop_S _ o _ Ho).
      replace (Z.to_nat (contextQueueIndex s + 1 + 1))
        with (S (Z.to_nat (contextQueueIndex s + 1))) by lia.
      unfold js_at, js_get.
      destruct (Z.ltb_spec (contextQueueIndex s + 1) 0); [lia|].
      rewrite Ho, <- app_assoc. by destruct o.
Qed.

Lemma omap_id_Some {A} (l : list A) : omap id (Some <$> l) = l.
Proof. induction l as [|x l IH]; [done|]. cbn. by f_equal. Qed.

Lemma rebuildCombinedQueue_queue (s : Player) :
  -1 <= contextQueueIndex s ->
  queue (rebuildCombinedQueue s) =
    Some <$> (option_list (currentTrack s) ++ temporaryQueue s
              ++ omap id (drop (Z.to_nat (contextQueueIndex s + 1))
                               (contextQueue s))).
Proof.
  intros Hlo. unfold rebuildCombinedQueue, filter_truthy, js_slice_from.
  cbn [queue set_queueIndex set_queue].
  destruct (Z.ltb_spec (contextQueueIndex s + 1) 0); [lia|].
  f_equal. rewrite !omap_app, omap_id_Some. by destruct (currentTrack s).
Qed.

Lemma playNext_times_temporary (tq : list Track) :
  forall s : Player,
    temporaryQueue s = tq ->
    let s' := playNext_times (length tq) s in
    temporaryQueue s' = [] /\
    contextQueue s' = contextQueue s /\
    contextQueueIndex s' = contextQueueIndex s /\
    loaded s' = loaded s ++ tq.
Proof.
  induction tq as [|t tq IH]; intros s Etq; cbv zeta.
  - simpl. by rewrite app_nil_r.
  - destruct (playNext_temporary s t tq Etq) as (Ht & Hc & Hi & Hl).
    cbn [length playNext_times].
    destruct (IH (playNext s) Ht) as (Ht2 & Hc2 & Hi2 & Hl2).
    rewrite Ht2, Hc2, Hi2, Hl2, Hc, Hi, Hl.
    split_and!; try done. by rewrite <- app_assoc.
Qed.

Lemma playNext_times_add (a b : nat) (s : Player) :
  playNext_times (a + b) s = playNext_times b (playNext_times a s).
Proof. revert s. induction a as [|a IH]; intros s; [done|]. apply IH. Qed.

(** X11. From any state whose context index is at least [-1], as many
    [playNext()] calls as there are tracks in the temporary queue and
    slots after the context index play exactly the temporary queue, front
    to back, and then the rest of the context queue in order; the
    temporary queue is then empty and a further [playNext()] changes
    nothing. The combined queue [rebuildCombinedQueue()] builds is the
    current track followed by these same tracks, and when the index is
    inside the context queue their number is [totalTracksInQueue] of
    [getQueueInfo()]. *)
Theorem playNext_plays_out (s : Player) :
  -1 <= contextQueueIndex s ->
  let rest := drop (Z.to_nat (contextQueueIndex s + 1)) (contextQueue s) in
  let n := (length (temporaryQueue s) + length rest)%nat in
  let s' := playNext_times n s in
  loaded s' = loaded s ++ temporaryQueue s ++ omap id rest /\
  temporaryQueue s' = [] /\
  contextQueue s' = contextQueue s /\
  playNext s' = s' /\
  queue (rebuildCombinedQueue s) =
    Some <$> (option_list (currentTrack s) ++ temporaryQueue s
              ++ omap id rest) /\
  (contextQueueIndex s < Z.of_nat (length (contextQueue s)) ->
     Z.of_nat n = totalTracksInQueue (getQueueInfo s) /\
     contextQueueIndex s' = Z.of_nat (length (contextQueue s)) - 1).
Proof.
  intros Hlo. cbv zeta. rewrite playNext_times_add.
  destruct (playNext_times_temporary (temporaryQueue s) s eq_refl)
    as (Ht & Hc & Hi & Hl).
  set (s1 := playNext_times (length (temporaryQueue s)) s) in *.
  destruct (playNext_times_context
              (length (drop (Z.to_nat (contextQueueIndex s + 1))
                            (contextQueue s))) s1 Ht)
    as (Ht2 & Hc2 & Hi2 & Hl2).
  { by rewrite Hi. }
  { by rewrite Hc, Hi. }
  rewrite Hc, Hi, Hl in *.
  split_and!; try done.
  - by rewrite Hl2, <- app_assoc.
  - apply playNext_exhausted; [done|].
    rewrite Hc2, Hi2, length_drop. lia.
  - by apply rebuildCombinedQueue_queue.
  - intros Hup. rewrite Hi2, length_drop. unfold getQueueInfo. simpl. lia.
Qed.

Lemma playNext_plays_out_witness :
  let s :=
    (addToQueue (Some (track_of "X")) false
       (playContext half (playlist_ABC 0 false) initial)).2 in
  loaded (playNext_times 3 s)
    = [track_of "A"; track_of "X"; track_of "B"; track_of "C"] /\
  queue s = [Some (track_of "A"); Some (track_of "X");
             Some (track_of "B"); Some (track_of "C")] /\
  totalTracksInQueue (getQueueInfo s) = 3.
Proof.
  pose proof (playNext_plays_out
                (addToQueue (Some (track_of "X")) false
                   (playContext half (playlist_ABC 0 false) initial)).2
                ltac:(simpl; lia)) as H.
  cbv zeta in H. destruct H as (Hl & _ & _ & _ & _ & _).
  split_and!; [exact Hl | reflexivity | reflexivity].
Defined.

(** X12. After [clearQueue()] both queues, the context and the preload
    cache are empty and the index invariant holds, while the current
    track, the play state and the transport are as before. From there
    [playNext()] does nothing, [playPrevious()] only seeks to 0,
    [onTrackEnded()] only clears the play flag and [toggleShuffle()]
    returns [false] without a change. The saved [originalQueue] of an
    earlier shuffle is not cleared. *)
Theorem clearQueue_then (random : nat -> Q) (s : Player) :
  let c := clearQueue s in
  (temporaryQueue c = [] /\ contextQueue c = [] /\ queue c = [] /\
   preloadCache c = [] /\ playbackContext c = empty_context /\
   index_invariant c) /\
  (currentTrack c = currentTrack s /\ isPlaying c = isPlaying s /\
   audio_currentTime c = audio_currentTime s /\
   audio_paused c = audio_paused s /\ loaded c = loaded s /\
   originalQueue c = originalQueue s) /\
  playNext c = c /\
  playPrevious c = set_audio_currentTime 0%Q c /\
  onTrackEnded c = set_isPlaying false c /\
  toggleShuffle random c = (false, c).
Proof.
  cbv zeta. split_and!; try done.
  - unfold playPrevious. simpl. by destruct (Qgtb _ _).
Qed.

(** X13. [playQueue(tracks, startIndex)] replaces both queues and plays
    [tracks[startIndex]]; with the start index inside the list the index
    invariant holds. It leaves [playbackContext] as it was, so a following
    [toggleShuffle()] shuffles the tracks of the earlier context: when
    shuffle is off and the start index also lies inside those tracks, the
    context queue becomes a permutation of the earlier context's tracks
    and the list just passed to [playQueue] is gone. *)
Theorem playQueue_keeps_context (random : nat -> Q) (trks : list Track)
    (startIndex : Z) (s : Player) :
  let s' := playQueue trks startIndex s in
  temporaryQueue s' = [] /\
  contextQueue s' = Some <$> trks /\
  contextQueueIndex s' = startIndex /\
  currentTrack s' = js_get trks startIndex /\
  playbackContext s' = playbackContext s /\
  (0 <= startIndex < Z.of_nat (length trks) ->
     index_invariant s' /\ is_Some (currentTrack s')) /\
  (shuffle (playbackContext s) = false ->
   0 <= startIndex < Z.of_nat (length (tracks (playbackContext s))) ->
     contextQueue (toggleShuffle random s').2
       ≡ₚ Some <$> tracks (playbackContext s)).
Proof.
  cbv zeta. unfold playQueue.
  rewrite loadAndPlayTrack_temporaryQueue, loadAndPlayTrack_contextQueue,
    loadAndPlayTrack_contextQueueIndex.
  set (s3 := set_queueIndex _ _).
  assert (Hctx : playbackContext (loadAndPlayTrack (js_get trks startIndex) s3)
                 = playbackContext s) by by destruct (js_get _ _).
  assert (Hqi : queueIndex (loadAndPlayTrack (js_get trks startIndex) s3)
                = startIndex) by by destruct (js_get _ _).
  split_and!; try done.
  - by destruct (js_get _ _).
  - intros Hr. split.
    + apply index_invariant_intro.
      rewrite loadAndPlayTrack_contextQueue,
        loadAndPlayTrack_contextQueueIndex. simpl. by rewrite length_fmap.
    + destruct (js_get_in_range trks startIndex Hr) as (t & Ht & _).
      rewrite Ht. by eexists.
  - intros Hs Hr.
    rewrite toggleShuffle_on; rewrite ?Hctx; try done.
    + rewrite Hqi. by apply enableShuffle_pinned_permutation.
    + intros E. rewrite E in Hr. simpl in Hr. lia.
Qed.

Lemma playQueue_keeps_context_witness :
  let s := playContext half (playlist_ABC 1 false) initial in
  let s' := playQueue [track_of "X"; track_of "Y"] 1 s in
  (index_invariant s' /\ currentTrack s' = Some (track_of "Y")) /\
  contextQueue (toggleShuffle half s').2
    ≡ₚ [Some (track_of "A"); Some (track_of "B"); Some (track_of "C")].
Proof.
  destruct (playQueue_keeps_context half [track_of "X"; track_of "Y"] 1
              (playContext half (playlist_ABC 1 false) initial))
    as (_ & _ & _ & Hcur & _ & Hinv & Hperm).
  split.
  - split; [apply Hinv; simpl; lia | exact Hcur].
  - apply Hperm; [reflexivity | simpl; lia].
Defined.

(** ** The persisted state *)

(** X14. [savePlaybackState()] writes a snapshot exactly when there is a
    current track, and restoring that snapshot into any engine brings back
    the current track, both queues with their indices, the playback
    context and the shuffle state, always paused. The saved position comes
    back as the position of the element for a downloaded track (when it is
    above 0) and as [savedRestoreTime] for a streamed one. *)
Theorem save_restore_round_trip (s s0 : Player) :
  (savePlaybackState s = None <-> currentTrack s = None) /\
  (forall snap, savePlaybackState s = Some snap ->
     let r := loadPlaybackState (Some snap) s0 in
     currentTrack r = currentTrack s /\
     temporaryQueue r = temporaryQueue s /\
     contextQueue r = contextQueue s /\
     contextQueueIndex r = contextQueueIndex s /\
     queue r = queue s /\
     queueIndex r = queueIndex s /\
     playbackContext r = playbackContext s /\
     originalQueue r = originalQueue s /\
     shuffledIndices r = shuffledIndices s /\
     isPlaying r = false /\
     (is_local (snap_track snap) = true ->
        (0 < audio_currentTime s)%Q ->
        audio_currentTime r = audio_currentTime s) /\
     (is_local (snap_track snap) = false ->
        savedRestoreTime r = audio_currentTime s /\
        audio_currentTime r = audio_currentTime s0)).
Proof.
  split.
  - unfold savePlaybackState. by destruct (currentTrack s).
  - intros snap Hsave. unfold savePlaybackState in Hsave.
    destruct (currentTrack s) as [t|] eqn:Hc; [|done].
    injection Hsave as <-. cbv zeta. unfold loadPlaybackState. simpl.
    destruct (is_local t) eqn:El.
    + destruct (Qgtb (audio_currentTime s) 0) eqn:Eg; split_and!; try done.
      intros _ Hpos. apply Qgtb_true in Hpos. congruence.
    + by split_and!.
Qed.

Lemma save_restore_round_trip_witness :
  let s :=
    set_audio_currentTime (42 # 1)
      (onPlay
         (addToQueue (Some (track_of "X")) true
            (playContext half (playlist_ABC 1 false) initial)).2) in
  isPlaying s = true /\
  forall snap, savePlaybackState s = Some snap ->
    temporaryQueue (loadPlaybackState (Some snap) initial)
      = temporaryQueue s /\
    contextQueueIndex (loadPlaybackState (Some snap) initial)
      = contextQueueIndex s /\
    isPlaying (loadPlaybackState (Some snap) initial) = false.
Proof.
  intros s. split; [reflexivity|]. intros snap Hsnap.
  destruct (save_restore_round_trip s initial) as [_ H].
  destruct (H snap Hsnap) as (_ & Ht & _ & Hi & _ & _ & _ & _ & _ & Hp & _).
  by split_and!.
Defined.

(** ** Shuffle at its edges *)

Lemma other_indices_out_of_range (trks : list Track) (c : Z) :
  ~ (0 <= c < Z.of_nat (length trks)) ->
  other_indices trks c = Z.of_nat <$> seq 0 (length trks).
Proof.
  intros Hc. unfold other_indices. apply filter_Forall_id.
  apply Forall_forall. intros x Hx.
  apply list_elem_of_fmap in Hx as (n & -> & Hn).
  apply elem_of_seq in Hn. lia.
Qed.

Lemma js_get_out_of_range (trks : list Track) (c : Z) :
  ~ (0 <= c < Z.of_nat (length trks)) -> js_get trks c = None.
Proof.
  intros Hc. unfold js_get. destruct (Z.ltb_spec c 0); [done|].
  apply lookup_ge_None_2. lia.
Qed.

(** X15. [enableShuffle] with a pinned index outside the track list does
    not fail: no index is left out of the shuffle, so the context queue
    gets one slot more than there are tracks, an empty slot at index 0
    followed by a permutation of all the tracks. In particular a shuffled
    [playContext] on an empty track list leaves a context queue of one
    empty slot and no current track. *)
Theorem enableShuffle_pin_outside (random : nat -> Q) (trks : list Track)
    (c : Z) (s : Player) :
  ~ (0 <= c < Z.of_nat (length trks)) ->
  let s' := enableShuffle random trks c s in
  (exists rest,
      contextQueue s' = None :: rest /\ rest ≡ₚ Some <$> trks) /\
  length (contextQueue s') = S (length trks) /\
  js_at (contextQueue s') (contextQueueIndex s') = None /\
  (trks = [] ->
   forall arg, arg_shuffle arg = true -> arg_tracks arg = [] ->
     contextQueue (playContext random arg s) = [None] /\
     currentTrack (playContext random arg s) = None /\
     loaded (playContext random arg s) = loaded s).
Proof.
  intros Hc. cbv zeta.
  assert (Hq : exists rest,
             contextQueue (enableShuffle random trks c s) = None :: rest /\
             rest ≡ₚ Some <$> trks).
  { unfold enableShuffle.
    cbn [contextQueue set_queueIndex set_queue set_shuffle
         set_playbackContext set_contextQueueIndex set_contextQueue
         shuffledIndices set_shuffledIndices].
    rewrite fmap_cons, (js_get_out_of_range trks c Hc).
    eexists. split; [done|].
    rewrite <- js_get_all_indices. apply fmap_Permutation.
    rewrite fisher_yates_Permutation.
    by rewrite other_indices_out_of_range. }
  destruct Hq as (rest & Hq & Hperm).
  split_and!.
  - by exists rest.
  - by rewrite Hq, length_cons, Hperm, length_fmap.
  - by rewrite Hq.
  - intros -> arg Hsh Htr. unfold playContext, enableShuffle.
    rewrite Hsh, Htr. simpl.
    rewrite !(js_get_out_of_range [] (or_zero (arg_startIndex arg)))
      by (simpl; lia).
    by split_and!.
Qed.

Lemma enableShuffle_pin_outside_witness :
  let s' :=
    enableShuffle half [track_of "A"; track_of "B"] 5 initial in
  length (contextQueue s') = 3%nat /\
  js_at (contextQueue s') (contextQueueIndex s') = None.
Proof.
  destruct (enableShuffle_pin_outside half [track_of "A"; track_of "B"] 5
              initial) as (_ & Hlen & Hnone & _); [simpl; lia|].
  by split.
Defined.

(** X16. When the index of the combined queue agrees with the context
    index (as right after an unshuffled [playContext], or after advancing
    through the context with [playNext]) and points at the current track
    in the context's track list, turning shuffle on keeps that track
    current and puts it at index 0 of a permutation of the track list. *)
Theorem toggleShuffle_on_pins_current (random : nat -> Q) (s : Player)
    (ct : Track) :
  shuffle (playbackContext s) = false ->
  queueIndex s = contextQueueIndex s ->
  js_get (tracks (playbackContext s)) (contextQueueIndex s) = Some ct ->
  currentTrack s = Some ct ->
  let s' := (toggleShuffle random s).2 in
  (toggleShuffle random s).1 = true /\
  currentTrack s' = Some ct /\
  contextQueueIndex s' = 0 /\
  js_at (contextQueue s') 0 = Some ct /\
  contextQueue s' ≡ₚ Some <$> tracks (playbackContext s) /\
  originalQueue s' = tracks (playbackContext s).
Proof.
  intros Hs Hq Hget Hc.
  assert (Hr : 0 <= contextQueueIndex s
               < Z.of_nat (length (tracks (playbackContext s)))).
  { unfold js_get in Hget.
    destruct (Z.ltb_spec (contextQueueIndex s) 0); [done|].
    apply lookup_lt_Some in Hget. lia. }
  assert (Hne : tracks (playbackContext s) <> []).
  { intros E. rewrite E in Hr. simpl in Hr. lia. }
  cbv zeta.
  assert (H1 : (toggleShuffle random s).1
               = shuffle (playbackContext (toggleShuffle random s).2)) by done.
  rewrite H1, (toggleShuffle_on random s Hs Hne), Hq.
  destruct (enableShuffle_pinned_permutation random
              (tracks (playbackContext s)) (contextQueueIndex s) s Hr)
    as (Hhead & _ & Hperm).
  destruct (enableShuffle_fields random (tracks (playbackContext s))
              (contextQueueIndex s) s)
    as (Ho & Hidx & _ & Hsh & _ & Hct & _).
  rewrite Hhead, Hget, Hct, Hc. by split_and!.
Qed.

Lemma toggleShuffle_on_pins_current_witness :
  let s := playNext (playContext half (playlist_ABC 0 false) initial) in
  let s' := (toggleShuffle half s).2 in
  currentTrack s = Some (track_of "B") /\
  js_at (contextQueue s') 0 = Some (track_of "B") /\
  contextQueueIndex s' = 0.
Proof.
  destruct (toggleShuffle_on_pins_current half
              (playNext (playContext half (playlist_ABC 0 false) initial))
              (track_of "B") eq_refl eq_refl eq_refl eq_refl)
    as (_ & _ & Hidx & Hhead & _).
  by split_and!.
Defined.

(** X17. Turning shuffle off while the current track is not one of the
    shuffled context's tracks (a track played from the temporary queue)
    restores the original order and puts the context index at 0, whatever
    position had been reached. *)
Theorem toggleShuffle_off_falls_back (random : nat -> Q) (s : Player)
    (ct : Track) :
  shuffle (playbackContext s) = true ->
  originalQueue s <> [] ->
  currentTrack s = Some ct ->
  (forall t, t ∈ originalQueue s -> youtube_id t <> youtube_id ct) ->
  let s' := (toggleShuffle random s).2 in
  (toggleShuffle random s).1 = false /\
  contextQueue s' = Some <$> originalQueue s /\
  contextQueueIndex s' = 0 /\
  queueIndex s' = 0 /\
  currentTrack s' = Some ct /\
  temporaryQueue s' = temporaryQueue s.
Proof.
  intros Hs Hne Hc Hnone. cbv zeta. unfold toggleShuffle. rewrite Hs.
  unfold disableShuffle. rewrite Hc.
  destruct (originalQueue s) as [|x l] eqn:Eo; [done|].
  rewrite (findIndex_not_found _ _ Hnone). by split_and!.
Qed.

Lemma toggleShuffle_off_falls_back_witness :
  let s0 := playContext half (playlist_ABC 2 true) initial in
  let s1 := playNext (playNext s0) in
  let s := playNext (addToQueue (Some (track_of "X")) true s1).2 in
  contextQueueIndex s = 2 /\
  currentTrack s = Some (track_of "X") /\
  contextQueueIndex (toggleShuffle half s).2 = 0 /\
  contextQueue (toggleShuffle half s).2
    = [Some (track_of "A"); Some (track_of "B"); Some (track_of "C")].
Proof.
  intros s0 s1 s.
  assert (Hnone : forall t, t ∈ originalQueue s ->
                    youtube_id t <> youtube_id (track_of "X")).
  { intros t Ht. vm_compute in Ht.
    repeat (apply elem_of_cons in Ht as [->|Ht]; [done|]).
    by apply elem_of_nil in Ht. }
  destruct (toggleShuffle_off_falls_back half s (track_of "X")
              eq_refl ltac:(done) eq_refl Hnone)
    as (_ & Hq & Hidx & _).
  split_and!; [reflexivity | reflexivity | exact Hidx | exact Hq].
Defined.

(** ** Transport controls *)



(** X19. Muting and unmuting gives the volume back: from an audible
    volume, [toggleMute()] sets the volume to 0 and a second
    [toggleMute()] restores the volume it had. Unmuting with no volume
    remembered sets the volume to 1. *)
Theorem toggleMute_round_trip (tr : Transport) :
  (0 < audio_volume tr)%Q ->
  audio_volume (toggleMute tr) = 0%Q /\
  audio_volume (toggleMute (toggleMute tr)) = audio_volume tr /\
  engine (toggleMute (toggleMute tr)) = engine tr /\
  (forall tr0 : Transport,
      (audio_volume tr0 <= 0)%Q -> previousVolume tr0 = None ->
      audio_volume (toggleMute tr0) = 1%Q).
Proof.
  intros Hv. unfold toggleMute.
  assert (Hg : Qgtb (audio_volume tr) 0 = true) by by apply Qgtb_true.
  rewrite Hg. cbn [audio_volume previousVolume engine].
  assert (Hz : Qgtb 0 0 = false) by done. rewrite Hz.
  assert (Hnz : truthy_number (Some (audio_volume tr)) = true).
  { simpl. apply negb_true_iff, not_true_iff_false.
    intros E%Qeq_bool_iff. rewrite E in Hv. by apply Qlt_irrefl in Hv. }
  rewrite Hnz. split_and!; try done.
  intros tr0 Hle Hp. apply Qgtb_false in Hle. by rewrite Hle, Hp.
Qed.

Lemma toggleMute_round_trip_witness :
  audio_volume (toggleMute sample_transport) = 0%Q /\
  audio_volume (toggleMute (toggleMute sample_transport)) = (3 # 4)%Q.
Proof.
  destruct (toggleMute_round_trip sample_transport eq_refl)
    as (H0 & H1 & _).
  by split.
Defined.


Lemma loadPlaybackState_local (snap : Snapshot) (s : Player) :
  is_local (snap_track snap) = true ->
  let r := loadPlaybackState (Some snap) s in
  isPlaying r = false /\
  currentTrack r = Some (snap_track snap) /\
  ((0 < snap_currentTime snap)%Q ->
     audio_currentTime r = snap_currentTime snap).
Proof.
  intros Hloc. cbv zeta. unfold loadPlaybackState. rewrite Hloc.
  destruct (Qgtb (snap_currentTime snap) 0) eqn:Eg;
    destruct (snap_playbackContext snap), (snap_originalQueue snap),
      (snap_shuffledIndices snap); split_and!; try done;
    intros Hp%Qgtb_true; congruence.
Qed.





Lemma file_url_truthy (t : Track) : truthy_string (Some (file_url t)) = true.
Proof. done. Qed.

(** X21. A downloaded track restored from a snapshot needs no resolver:
    the restore stages its local file, with backslashes turned into
    slashes, as the source and seeks to the saved position, and the first
    [togglePlayPause()] only starts the element, leaving source, position
    and queue state alone whatever the resolver would answer. *)
Theorem resume_local_after_restore
    (resolve : option string -> option string) (snap : Snapshot)
    (tr : Transport) :
  is_local (snap_track snap) = true ->
  let r := loadPlaybackState_transport (Some snap) tr in
  let p := togglePlayPause resolve r in
  audio_src r = Some (file_url (snap_track snap)) /\
  isPlaying (engine r) = false /\
  ((0 < snap_currentTime snap)%Q ->
     audio_currentTime (engine r) = snap_currentTime snap) /\
  p = set_engine (set_audio_paused false (engine r)) r.
Proof.
  intros Hloc. cbv zeta.
  destruct (loadPlaybackState_local snap (engine tr) Hloc)
    as (Hplay & Hcur & Hpos).
  unfold loadPlaybackState_transport. rewrite Hloc.
  set (e := loadPlaybackState (Some snap) (engine tr)) in *.
  split_and!; try done.
  unfold togglePlayPause.
  cbn [engine set_engine audio_src set_audio_src].
  rewrite Hplay, Hcur, file_url_truthy.
  cbn [negb audio_src set_audio_src set_engine engine].
  by rewrite file_url_truthy.
Qed.

Lemma resume_local_after_restore_witness :
  let r := loadPlaybackState_transport (Some local_snapshot) idle_transport in
  audio_src r = Some "file:///C:/Music/l.mp3"%string /\
  audio_currentTime (engine r) = (17 # 1)%Q /\
  audio_paused (engine (togglePlayPause (fun _ => None) r)) = false.
Proof.
  destruct (resume_local_after_restore (fun _ => None) local_snapshot
              idle_transport eq_refl) as (Hsrc & _ & Hpos & Hp).
  split_and!; [exact Hsrc | by apply Hpos | by rewrite Hp].
Defined.

(** X22. The transport controls never touch what decides the playback
    order: [skip], [toggleMute] and [togglePlayPause] leave the current
    track, both queues and their indices, the playback context, the
    shuffle state, the preload cache and the list of loaded tracks as
    they were, whatever the resolver answers. *)
Theorem transport_controls_keep_queues
    (resolve : option string -> option string) (seconds : Q)
    (tr : Transport) :
  queue_state (engine (skip seconds tr)) = queue_state (engine tr) /\
  queue_state (engine (toggleMute tr)) = queue_state (engine tr) /\
  queue_state (engine (togglePlayPause resolve tr))
    = queue_state (engine tr).
Proof.
  split_and!.
  - unfold skip. destruct (audio_duration tr); [|done].
    by destruct (truthy_string _ && _).
  - unfold toggleMute. by destruct (Qgtb _ _).
  - unfold togglePlayPause. destruct (isPlaying (engine tr)); [done|].
    destruct (currentTrack (engine tr)) as [ct|] eqn:Ec.
    + destruct (truthy_string (audio_src tr)) eqn:Es; cbn [negb].
      * by rewrite Es.
      * destruct (resolve (youtube_id ct)) as [u|]; [|done].
        cbn [audio_src set_audio_src set_engine engine].
        destruct (truthy_string (Some u)),
          (Qgtb (savedRestoreTime (engine tr)) 0);
          unfold queue_state; simpl; by rewrite ?Ec.
    + by destruct (truthy_string (audio_src tr)).
Qed.

(** ** Preloading *)

(** What the selection loop guarantees for the tracks it hands to the
    resolver, entered at [i] with a running total of at most
    [maxPreloadDuration]. *)
Lemma select_tracks_spec (s : Player) (fuel : nat) :
  forall (i total : Z) (ts : list Track),
    select_tracks s fuel i total = Some ts ->
    total <= maxPreloadDuration ->
    (length ts <= fuel)%nat /\
    total + sum_durations ts <= maxPreloadDuration /\
    Forall (fun t =>
              downloaded t = false /\
              cache_has (youtube_id t) (preloadCache s) = false /\
              exists j, i <= j < i + Z.of_nat fuel /\
                        js_at (queue s) (queueIndex s + j) = Some t) ts.
Proof.
  induction fuel as [|fuel IH]; intros i total ts Hsel Htot.
  - injection Hsel as <-. simpl. split_and!; [lia | lia | constructor].
  - cbn [select_tracks] in Hsel.
    destruct (queueIndex s + i <? Z.of_nat (length (queue s)));
      [|injection Hsel as <-; simpl; split_and!; [lia | lia | constructor]].
    destruct (js_at (queue s) (queueIndex s + i)) as [track|] eqn:Eat;
      [|done].
    destruct (Z.ltb_spec maxPreloadDuration
                (total + or_zero (duration track))) as [|Hfit];
      [injection Hsel as <-; simpl; split_and!; [lia | lia | constructor]|].
    destruct (cache_has (youtube_id track) (preloadCache s)) eqn:Ehas;
      [|destruct (downloaded track) eqn:Edl]; cbn [orb] in Hsel.
    + destruct (IH _ _ _ Hsel Htot) as (Hn & Hd & Hall).
      split_and!; [lia | done |].
      eapply Forall_impl; [exact Hall|].
      intros t (? & ? & j & ? & ?). split_and!; try done. exists j.
      split; [lia | done].
    + destruct (IH _ _ _ Hsel Htot) as (Hn & Hd & Hall).
      split_and!; [lia | done |].
      eapply Forall_impl; [exact Hall|].
      intros t (? & ? & j & ? & ?). split_and!; try done. exists j.
      split; [lia | done].
    + destruct (select_tracks s fuel (i + 1)
                  (total + or_zero (duration track))) as [rest|] eqn:Erest;
        [|done].
      injection Hsel as <-.
      destruct (IH _ _ _ Erest Hfit) as (Hn & Hd & Hall).
      split_and!.
      * simpl. lia.
      * simpl. lia.
      * constructor.
        -- split_and!; try done. exists i. split; [lia | done].
        -- eapply Forall_impl; [exact Hall|].
           intros t (? & ? & j & ? & ?). split_and!; try done. exists j.
           split; [lia | done].
Qed.

(** X23. One preload pass asks the resolver for at most
    [maxPreloadTracks] tracks, of at most [maxPreloadDuration] seconds
    together; each of them stands within the next [maxPreloadTracks]
    positions of the combined queue, is not downloaded and is not in the
    cache yet. *)
Theorem preload_selection_bounds (s : Player) (ts : list Track) :
  select_tracks s (Z.to_nat maxPreloadTracks) 1 0 = Some ts ->
  Z.of_nat (length ts) <= maxPreloadTracks /\
  sum_durations ts <= maxPreloadDuration /\
  Forall (fun t =>
            downloaded t = false /\
            cache_has (youtube_id t) (preloadCache s) = false /\
            exists j, 1 <= j <= maxPreloadTracks /\
                      js_at (queue s) (queueIndex s + j) = Some t) ts.
Proof.
  intros Hsel.
  destruct (select_tracks_spec s _ 1 0 ts Hsel) as (Hn & Hd & Hall).
  { unfold maxPreloadDuration. lia. }
  split_and!.
  - unfold maxPreloadTracks in *. lia.
  - lia.
  - eapply Forall_impl; [exact Hall|].
    intros t (? & ? & j & Hj & ?). split_and!; try done. exists j.
    split; [|done]. unfold maxPreloadTracks in *. lia.
Qed.

Lemma preload_selection_bounds_witness :
  let s :=
    playContext half
      (mkContextArg (Some Playlist) None (Some "Long"%string)
         [long_track "T0"; long_track "T1"; long_track "T2"] (Some 0) false)
      initial in
  select_tracks s (Z.to_nat maxPreloadTracks) 1 0 = Some [long_track "T1"] /\
  sum_durations [long_track "T1"] <= maxPreloadDuration.
Proof.
  intros s.
  assert (Hsel : select_tracks s (Z.to_nat maxPreloadTracks) 1 0
                 = Some [long_track "T1"]) by reflexivity.
  split; [exact Hsel|].
  by destruct (preload_selection_bounds s [long_track "T1"] Hsel)
    as (_ & Hd & _).
Defined.

Lemma cache_set_keys (key : option string) (e : CacheEntry) (c : Cache) :
  (cache_set key e c).*1 =
    if decide (key ∈ c.*1) then c.*1 else c.*1 ++ [key].
Proof.
  induction c as [|[k v] c IH]; [done|]. cbn [cache_set].
  destruct (decide (k = key)) as [->|Hne]; rewrite !fmap_cons; cbn [fst].
  - by rewrite decide_True by apply list_elem_of_here.
  - rewrite IH.
    destruct (decide (key ∈ c.*1)) as [Hin|Hnotin].
    + by rewrite decide_True by by apply list_elem_of_further.
    + rewrite decide_False; [done|].
      intros [?|?]%elem_of_cons; congruence.
Qed.

Lemma cache_set_NoDup (key : option string) (e : CacheEntry) (c : Cache) :
  NoDup c.*1 -> NoDup (cache_set key e c).*1.
Proof.
  intros Hnd. rewrite cache_set_keys.
  destruct (decide (key ∈ c.*1)); [done|].
  apply NoDup_app. split_and!; [done | | apply NoDup_singleton].
  intros x Hx ->%list_elem_of_singleton. done.
Qed.

Lemma cache_set_length (key : option string) (e : CacheEntry) (c : Cache) :
  (length (cache_set key e c) <= S (length c))%nat.
Proof.
  induction c as [|[k v] c IH]; [done|]. simpl.
  destruct (decide (k = key)); simpl; lia.
Qed.

Lemma evict_oldest_sublist (entries : Cache) :
  forall (total : Z) (c : Cache), evict_oldest entries total c `sublist_of` c.
Proof.
  induction entries as [|[key data] rest IH]; intros total c; [done|].
  cbn [evict_oldest]. destruct (orb _ _); [|done].
  etrans; [apply IH|]. unfold cache_delete.
  apply (sublist_filter (fun kv : option string * CacheEntry => kv.1 <> key)).
Qed.

Lemma cleanup_keeps_invariant (c : Cache) :
  NoDup c.*1 ->
  NoDup (cleanup c).*1 /\ Z.of_nat (length (cleanup c)) <= maxPreloadTracks.
Proof.
  intros Hnd. unfold cleanup.
  destruct (Z.ltb_spec maxPreloadTracks (Z.of_nat (length c))) as [Hgt|Hle];
    [|done].
  split.
  - eapply sublist_NoDup; [exact Hnd|].
    apply fmap_sublist, evict_oldest_sublist.
  - apply evict_oldest_bounds; [apply sort_by_timestamp_Permutation | done |].
    symmetry. apply total_duration_Permutation, sort_by_timestamp_Permutation.
Qed.

Lemma resolve_tracks_keeps_invariant
    (resolve : option string -> option string) (now : nat -> Z)
    (ts : list Track) :
  forall (n : nat) (c : Cache),
    NoDup c.*1 -> Z.of_nat (length c) <= maxPreloadTracks ->
    NoDup (resolve_tracks resolve now n ts c).*1 /\
    Z.of_nat (length (resolve_tracks resolve now n ts c)) <= maxPreloadTracks.
Proof.
  induction ts as [|t ts IH]; intros n c Hnd Hlen; [done|].
  cbn [resolve_tracks]. destruct (resolve (youtube_id t)) as [u|];
    [|by apply IH].
  destruct (cleanup_keeps_invariant
              (cache_set (youtube_id t)
                 (mkEntry u t (now n) (or_zero (duration t))) c))
    as [Hnd' Hlen']; [by apply cache_set_NoDup|].
  by apply IH.
Qed.

(** X24. Preloading keeps the cache a map of at most [maxPreloadTracks]
    entries: from a cache with unique keys and at most that many entries,
    a preload pass, whatever the resolver answers and whenever, ends with
    unique keys and at most [maxPreloadTracks] entries, and changes
    nothing but the cache. *)
Theorem preload_keeps_cache_small
    (resolve : option string -> option string) (now : nat -> Z)
    (s : Player) :
  NoDup (preloadCache s).*1 ->
  Z.of_nat (length (preloadCache s)) <= maxPreloadTracks ->
  let s' := preloadUpcomingTracks resolve now s in
  NoDup (preloadCache s').*1 /\
  Z.of_nat (length (preloadCache s')) <= maxPreloadTracks /\
  s' = set_preloadCache (preloadCache s') s.
Proof.
  intros Hnd Hlen. cbv zeta. unfold preloadUpcomingTracks.
  destruct (select_tracks s _ 1 0) as [ts|].
  - destruct (resolve_tracks_keeps_invariant resolve now ts 0
                (preloadCache s) Hnd Hlen) as [Hnd' Hlen'].
    by split_and!.
  - split_and!; try done. by destruct s.
Qed.

Lemma preload_keeps_cache_small_witness :
  let s' :=
    preloadUpcomingTracks (fun _ => Some "https://stream"%string)
      (fun n => 200 + Z.of_nat n)
      (set_preloadCache (take 5 six_entries)
         (playContext half
            (mkContextArg (Some Playlist) None (Some "Long"%string)
               [long_track "T0"; long_track "T1"; long_track "T2"]
               (Some 0) false)
            initial)) in
  Z.of_nat (length (preloadCache s')) <= maxPreloadTracks /\
  (preloadCache s').*1 = [Some "A"; Some "B"; Some "T1"]%string.
Proof.
  destruct (preload_keeps_cache_small (fun _ => Some "https://stream"%string)
              (fun n => 200 + Z.of_nat n)
              (set_preloadCache (take 5 six_entries)
                 (playContext half
                    (mkContextArg (Some Playlist) None (Some "Long"%string)
                       [long_track "T0"; long_track "T1"; long_track "T2"]
                       (Some 0) false)
                    initial)))
    as (_ & Hlen & _).
  - by apply (bool_decide_unpack _).
  - simpl. unfold maxPreloadTracks. lia.
  - split; [exact Hlen | vm_compute; reflexivity].
Defined.

Lemma cache_get_set_same (key : option string) (e : CacheEntry) (c : Cache) :
  cache_get key (cache_set key e c) = Some e.
Proof.
  induction c as [|[k v] c IH]; simpl.
  - by rewrite decide_True.
  - destruct (decide (k = key)) as [->|Hne]; simpl.
    + by rewrite decide_True.
    + by rewrite decide_False.
Qed.

Lemma cache_get_set_other (key key' : option string) (e : CacheEntry)
    (c : Cache) :
  key <> key' -> cache_get key' (cache_set key e c) = cache_get key' c.
Proof.
  intros Hne. induction c as [|[k v] c IH]; simpl.
  - by rewrite decide_False.
  - destruct (decide (k = key)) as [->|Hk]; simpl.
    + by rewrite !decide_False.
    + destruct (decide (k = key')); [done | apply IH].
Qed.

Lemma cache_has_get (key : option string) (c : Cache) :
  cache_has key c = true <-> is_Some (cache_get key c).
Proof.
  unfold cache_has. rewrite bool_decide_eq_true.
  induction c as [|[k v] c IH]; simpl.
  - rewrite elem_of_nil. split; [done | by intros [? ?]].
  - rewrite elem_of_cons. destruct (decide (k = key)) as [->|Hne].
    + split; [by eexists | by left].
    + rewrite <- IH. split; [intros [?|?]; [congruence | done] | by right].
Qed.

Lemma cleanup_small (c : Cache) :
  Z.of_nat (length c) <= maxPreloadTracks -> cleanup c = c.
Proof.
  intros Hle. unfold cleanup.
  by destruct (Z.ltb_spec maxPreloadTracks (Z.of_nat (length c))); [lia|].
Qed.

(** An entry the resolver produced for [key] survives the rest of a pass
    that evicts nothing. *)
Lemma resolve_tracks_keeps_entry
    (resolve : option string -> option string) (now : nat -> Z)
    (key : option string) (u : string) (ts : list Track) :
  resolve key = Some u ->
  forall (n : nat) (c : Cache),
    Z.of_nat (length c + length ts) <= maxPreloadTracks ->
    (exists e, cache_get key c = Some e /\ url e = u) ->
    exists e, cache_get key (resolve_tracks resolve now n ts c) = Some e /\
              url e = u.
Proof.
  intros Hres. induction ts as [|t ts IH]; intros n c Hlen Hget; [done|].
  cbn [resolve_tracks length] in *.
  destruct (resolve (youtube_id t)) as [u'|] eqn:Er;
    [|apply IH; [lia | done]].
  pose proof (cache_set_length (youtube_id t)
                (mkEntry u' t (now n) (or_zero (duration t))) c) as Hl.
  rewrite cleanup_small by lia.
  apply IH; [lia|].
  destruct (decide (youtube_id t = key)) as [E|Hne].
  - rewrite E in *. rewrite cache_get_set_same. eexists. split; [done|].
    simpl. congruence.
  - by rewrite cache_get_set_other.
Qed.

Lemma resolve_tracks_caches
    (resolve : option string -> option string) (now : nat -> Z)
    (t : Track) (u : string) (ts : list Track) :
  resolve (youtube_id t) = Some u ->
  t ∈ ts ->
  forall (n : nat) (c : Cache),
    Z.of_nat (length c + length ts) <= maxPreloadTracks ->
    exists e, cache_get (youtube_id t)
                (resolve_tracks resolve now n ts c) = Some e /\
              url e = u.
Proof.
  intros Hres Hin. induction ts as [|t' ts IH]; intros n c Hlen.
  { by apply elem_of_nil in Hin. }
  cbn [length] in Hlen.
  apply elem_of_cons in Hin as [<-|Hin].
  - cbn [resolve_tracks]. rewrite Hres.
    pose proof (cache_set_length (youtube_id t)
                  (mkEntry u t (now n) (or_zero (duration t))) c) as Hl.
    rewrite cleanup_small by lia.
    apply resolve_tracks_keeps_entry; [done | lia |].
    rewrite cache_get_set_same. by eexists.
  - cbn [resolve_tracks].
    destruct (resolve (youtube_id t')) as [u'|]; [|apply IH; [done | lia]].
    pose proof (cache_set_length (youtube_id t')
                  (mkEntry u' t' (now n) (or_zero (duration t'))) c) as Hl.
    rewrite cleanup_small by lia.
    apply IH; [done | lia].
Qed.

(** X25. A track a preload pass has resolved is played without the
    resolver: when the pass fits the cache without eviction, every track
    it selected and resolved gets its stream URL from the cache in
    [loadAndPlayTrack], even if the resolver would fail by then. *)
Theorem preloaded_track_plays_from_cache
    (resolve resolve' : option string -> option string) (now : nat -> Z)
    (s : Player) (ts : list Track) (t : Track) (u : string) :
  select_tracks s (Z.to_nat maxPreloadTracks) 1 0 = Some ts ->
  Z.of_nat (length (preloadCache s) + length ts) <= maxPreloadTracks ->
  t ∈ ts ->
  resolve (youtube_id t) = Some u ->
  track_source resolve' t
    (preloadCache (preloadUpcomingTracks resolve now s)) = Some u.
Proof.
  intros Hsel Hlen Hin Hres.
  destruct (select_tracks_spec s _ 1 0 ts Hsel) as (_ & _ & Hall).
  { unfold maxPreloadDuration. lia. }
  destruct (proj1 (Forall_forall _ _) Hall t Hin) as (Hdl & _).
  unfold preloadUpcomingTracks. rewrite Hsel.
  cbn [preloadCache set_preloadCache].
  destruct (resolve_tracks_caches resolve now t u ts Hres Hin 0
              (preloadCache s) Hlen) as (e & Hget & Hurl).
  unfold track_source, is_local. rewrite Hdl, andb_false_r.
  assert (Hhas : cache_has (youtube_id t)
                   (resolve_tracks resolve now 0 ts (preloadCache s)) = true).
  { apply cache_has_get. by eexists. }
  rewrite Hhas, Hget. simpl. by rewrite Hurl.
Qed.

Lemma preloaded_track_plays_from_cache_witness :
  let s :=
    playContext half
      (mkContextArg (Some Playlist) None (Some "Long"%string)
         [long_track "T0"; long_track "T1"; long_track "T2"] (Some 0) false)
      initial in
  track_source (fun _ => None) (long_track "T1")
    (preloadCache
       (preloadUpcomingTracks (fun _ => Some "https://stream/t1"%string)
          (fun n => Z.of_nat n) s))
  = Some "https://stream/t1"%string.
Proof.
  intros s.
  apply (preloaded_track_plays_from_cache
           (fun _ => Some "https://stream/t1"%string) (fun _ => None)
           (fun n => Z.of_nat n) s [long_track "T1"]).
  - reflexivity.
  - simpl. unfold maxPreloadTracks. lia.
  - apply list_elem_of_here.
  - reflexivity.
Defined.
